(** * TF-IDF weighting transformer (package nlp): a shallow embedding

    The development follows the Go file that defines [TfidfTransformer]:
    its configuration accessors, [Fit], [Transform], [FitTransform],
    [Save] and [Load].  The matrix values the transformer handles come
    from two imported packages, gonum's [mat] and james-bowman's
    [sparse]; the parts of them the transformer calls are written out
    in module [Sparse] below, after their documented behaviour. *)

From Stdlib Require Import ZArith List Reals Lra Lia Bool String.
From Stdlib Require Floats Uint63.
From stdpp Require Import base list gmap.
Import ListNotations.

Local Open Scope Z_scope.
Local Open Scope nat_scope.

(** ** float64

    The code computes with Go's [float64].  Its operations are kept
    abstract: every definition is written over a type [F] with the
    operations the source uses, and the theorems that need no law of
    arithmetic hold for any interpretation of them. *)

Class Float64 (F : Type) := {
  f_zero : F;                    (* the constant 0.0 *)
  f_add : F -> F -> F;           (* x + y *)
  f_mul : F -> F -> F;           (* x * y *)
  f_div : F -> F -> F;           (* x / y *)
  f_eq0 : F -> bool;             (* x == 0 (so  x != 0  is its negation) *)
  math_Log : F -> F;             (* math.Log *)
  math_Sqrt : F -> F;            (* math.Sqrt *)
  float64_of_int : Z -> F        (* the conversion float64(i) of an int *)
}.

(** ** int

    Go's [int] is a 64-bit two's-complement integer; [1+n] wraps. *)

Definition wrap_int (z : Z) : Z :=
  ((z + 2 ^ 63) mod 2 ^ 64 - 2 ^ 63)%Z.

Definition int_add (a b : Z) : Z := wrap_int (a + b).

(** ** Outcomes of a call: a normal return or a panic *)

Inductive panic : Type :=
  | ErrShape          (* mat.ErrShape, "mat: dimension mismatch" *)
  | NilDereference.   (* a method called through a nil pointer *)

Inductive outcome (A : Type) : Type :=
  | Returned (a : A)
  | Panicked (p : panic).
Arguments Returned {A} a.
Arguments Panicked {A} p.

Definition error := string.

(** ** The matrix values of packages [mat] and [sparse] *)

Module Sparse.
Section Matrices.
Context {F : Type} `{Float64 F}.

(** [blas.SparseMatrix], the storage of a compressed-row matrix that
    [RawMatrix()] hands out: the stored entries of row [i] sit at the
    positions [Indptr[i] <= k < Indptr[i+1]] of [Ind] (column numbers)
    and [Data] (values). *)
Record CSR : Type := NewCSR {
  raw_I : nat;
  raw_J : nat;
  Indptr : list nat;
  Ind : list nat;
  Data : list F
}.

(** A diagonal matrix, [sparse.DIA], as [NewDIA(m, n, diagonal)] builds it. *)
Record DIA : Type := NewDIA {
  dia_m : nat;
  dia_n : nat;
  Diagonal : list F
}.

(** Any other [mat.Matrix], known through [Dims] and [At] only
    (a [*mat.Dense], for instance). *)
Record AnyMatrix : Type := {
  any_rows : nat;
  any_cols : nat;
  any_At : nat -> nat -> F
}.

(** [sparse.TypeConverter]: a sparse matrix of another format, used by the
    transformer through its method [ToCSR] alone. *)
Record TypeConverter : Type := { ToCSR : CSR }.

(** The dynamic type behind a [mat.Matrix] argument. *)
Inductive Matrix : Type :=
  | MatCSR (c : CSR)                 (* *sparse.CSR; its ToCSR returns the receiver *)
  | MatConv (tc : TypeConverter)     (* COO, DOK, CSC, ... *)
  | MatAny (g : AnyMatrix).          (* no ToCSR method *)

(** The entries stored for row [i], in storage order. *)
Definition row_entries (c : CSR) (i : nat) : list (nat * F) :=
  let lo := nth i (Indptr c) 0 in
  let hi := nth (i + 1) (Indptr c) 0 in
  map (fun k => (nth k (Ind c) 0, nth k (Data c) f_zero)) (seq lo (hi - lo)).

(** [CSR.RowNNZ(i)]: the number of entries stored for row [i],
    [Indptr[i+1] - Indptr[i]].  Go panics on an index outside [Indptr];
    the reads here and in [row_entries] give 0 there, so what is proved
    of a compressed-row matrix describes the code on storage in range
    ([Storage.in_range]), which is all [NewCSR] is meant to receive. *)
Definition RowNNZ (c : CSR) (i : nat) : nat :=
  nth (i + 1) (Indptr c) 0 - nth i (Indptr c) 0.

(** [CSR.At(i, j)]: the value stored for column [j] in row [i], zero when
    nothing is stored there. *)
Definition CSR_At (c : CSR) (i j : nat) : F :=
  match find (fun e => Nat.eqb (fst e) j) (row_entries c i) with
  | Some e => snd e
  | None => f_zero
  end.

Definition csr_of (matrix : Matrix) : option CSR :=
  match matrix with
  | MatCSR c => Some c
  | MatConv tc => Some (ToCSR tc)
  | MatAny _ => None
  end.

Definition Dims (matrix : Matrix) : nat * nat :=
  match matrix with
  | MatCSR c => (raw_I c, raw_J c)
  | MatConv tc => (raw_I (ToCSR tc), raw_J (ToCSR tc))
  | MatAny g => (any_rows g, any_cols g)
  end.

Definition At (matrix : Matrix) (i j : nat) : F :=
  match matrix with
  | MatCSR c => CSR_At c i j
  | MatConv tc => CSR_At (ToCSR tc) i j
  | MatAny g => any_At g i j
  end.

(** Row offsets of a matrix whose rows are given one after the other. *)
Fixpoint offsets (start : nat) (rows : list (list (nat * F))) : list nat :=
  start ::
  match rows with
  | [] => []
  | r :: rs => offsets (start + length r) rs
  end.

(** The compressed-row matrix a loop builds that appends the entries of
    row 0, then row 1, ... to [Ind] and [Data] and records
    [Indptr[i+1] = len(Ind)] after each row. *)
Definition csr_of_rows (r c : nat) (rows : list (list (nat * F))) : CSR :=
  {| raw_I := r; raw_J := c;
     Indptr := offsets 0 rows;
     Ind := concat (map (map fst) rows);
     Data := concat (map (map snd) rows) |}.

(** One row of [DIA * matrix]: every value times the row's diagonal
    entry, the products that are zero left out. *)
Definition scale_row (w : F) (row : list (nat * F)) : list (nat * F) :=
  List.filter (fun e => negb (f_eq0 (snd e)))
         (map (fun e => (fst e, f_mul (snd e) w)) row).

Definition mul_row (dia : DIA) (i : nat) (row : list (nat * F)) : list (nat * F) :=
  match nth_error (Diagonal dia) i with
  | Some w => scale_row w row
  | None => []
  end.

(** [mulDIACSR]: the product [DIA * CSR], row by row over the stored entries. *)
Definition mulDIACSR (dia : DIA) (other : CSR) : CSR :=
  csr_of_rows (dia_m dia) (raw_J other)
    (map (fun i => mul_row dia i (row_entries other i)) (seq 0 (dia_m dia))).

(** [mulDIAMat]: the product [DIA * matrix] for any other matrix, reading
    every cell with [At]. *)
Definition mulDIAMat (dia : DIA) (other : Matrix) : CSR :=
  csr_of_rows (dia_m dia) (snd (Dims other))
    (map (fun i => mul_row dia i (map (fun k => (k, At other i k)) (seq 0 (snd (Dims other)))))
         (seq 0 (dia_m dia))).

(** [product.Mul(a, b)] with a diagonal left operand: a shape panic when
    the columns of [a] are not the rows of [b]; a nil [a] cannot be asked
    for its dimensions. *)
Definition Mul (a : option DIA) (b : Matrix) : outcome CSR :=
  match a with
  | None => Panicked NilDereference
  | Some dia =>
      if Nat.eqb (dia_n dia) (fst (Dims b)) then
        Returned (match b with
                  | MatCSR c => mulDIACSR dia c
                  | _ => mulDIAMat dia b
                  end)
      else Panicked ErrShape
  end.

(** The stored entries of column [j], rows in increasing order. *)
Definition column_entries (c : CSR) (j : nat) : list (nat * F) :=
  flat_map (fun i => map (fun e => (i, snd e))
                         (List.filter (fun e => Nat.eqb (fst e) j) (row_entries c i)))
           (seq 0 (raw_I c)).

(** The transpose [c.T()], a CSC view, converted with [ToCSR()]: the
    transposed matrix, again in compressed-row form.  Row [j] of the
    result collects the entries stored for column [j], for the columns
    [j] within the width; storage in range names no other column. *)
Definition transpose (c : CSR) : CSR :=
  csr_of_rows (raw_J c) (raw_I c) (map (column_entries c) (seq 0 (raw_J c))).

End Matrices.
Arguments CSR F : clear implicits.
Arguments DIA F : clear implicits.
Arguments AnyMatrix F : clear implicits.
Arguments TypeConverter F : clear implicits.
Arguments Matrix F : clear implicits.
End Sparse.

(** ** The transformer *)

Module Tfidf.
Import Sparse.

Section Transformer.
Context {F : Type} `{Float64 F}.

Record TfidfTransformer : Type := {
  transform : option (DIA F);      (* *sparse.DIA, nil until Fit or Load *)
  weightPadding : F;
  l2Normalization : Z
}.

Definition NoL2Normalization : Z := 0.
Definition RowBasedL2Normalization : Z := 1.
Definition ColBasedL2Normalization : Z := 2.

Definition NewTfidfTransformer : TfidfTransformer :=
  {| transform := None; weightPadding := f_zero; l2Normalization := 0 |}.

Definition GetWeightPadding (t : TfidfTransformer) : F := weightPadding t.

Definition SetWeightPadding (t : TfidfTransformer) (wp : F) : TfidfTransformer :=
  {| transform := transform t; weightPadding := wp;
     l2Normalization := l2Normalization t |}.

Definition GetL2Normalization (t : TfidfTransformer) : Z := l2Normalization t.

Definition SetL2Normalization (t : TfidfTransformer) (ln : Z) : TfidfTransformer :=
  {| transform := transform t; weightPadding := weightPadding t;
     l2Normalization := ln |}.

Definition set_transform (t : TfidfTransformer) (d : DIA F) : TfidfTransformer :=
  {| transform := Some d; weightPadding := weightPadding t;
     l2Normalization := l2Normalization t |}.

(** The opening lines of [Fit], [Transform] and [FitTransform]: a matrix
    that is a [sparse.TypeConverter] is replaced by its [ToCSR()]. *)
Definition to_csr (matrix : Matrix F) : Matrix F :=
  match matrix with
  | MatCSR c => MatCSR c
  | MatConv tc => MatCSR (ToCSR tc)
  | MatAny g => MatAny g
  end.

(** The inner loop of the fallback path of [Fit]: [df] counts the columns
    [j < n] with [matrix.At(i, j) != 0]. *)
Definition count_nonzero (matrix : Matrix F) (i n : nat) : nat :=
  fold_left (fun df j => if negb (f_eq0 (At matrix i j)) then S df else df)
            (seq 0 n) 0.

(** [math.Log(float64(1+n)/float64(1+df)) + t.weightPadding] *)
Definition idf_weight (pad : F) (n df : nat) : F :=
  f_add (math_Log (f_div (float64_of_int (int_add 1 (Z.of_nat n)))
                         (float64_of_int (int_add 1 (Z.of_nat df)))))
        pad.

(** The slice [weights] once the loops of [Fit] are done: the fast path
    for a [*sparse.CSR], the scan of every cell otherwise. *)
Definition weights (pad : F) (matrix : Matrix F) : list F :=
  let '(m, n) := Dims matrix in
  match matrix with
  | MatCSR csr =>
      map (fun i => idf_weight pad n (RowNNZ csr i)) (seq 0 m)
  | _ =>
      map (fun i => idf_weight pad n (count_nonzero matrix i n)) (seq 0 m)
  end.

Definition Fit (t : TfidfTransformer) (matrix : Matrix F) : TfidfTransformer :=
  let matrix := to_csr matrix in
  let '(m, n) := Dims matrix in
  set_transform t (NewDIA m m (weights (weightPadding t) matrix)).

(** The two inner loops of the normalization in [Transform], over the
    positions [lo <= j < hi] of [rawProduct.Data]. *)
Definition sum_squares (data : list F) (lo hi : nat) : F :=
  fold_left (fun sum j => f_add sum (f_mul (nth j data f_zero) (nth j data f_zero)))
            (seq lo (hi - lo)) f_zero.

Definition divide_range (data : list F) (lo hi : nat) (sum : F) : list F :=
  fold_left (fun d j => <[ j := f_div (nth j d f_zero) sum ]> d)
            (seq lo (hi - lo)) data.

(** The body of the loop over the rows [i] of [rawProduct]. *)
Definition normalise_row (raw : CSR F) (i : nat) : CSR F :=
  let lo := nth i (Indptr raw) 0 in
  let hi := nth (i + 1) (Indptr raw) 0 in
  let sum := sum_squares (Data raw) lo hi in
  if f_eq0 sum then raw
  else NewCSR (raw_I raw) (raw_J raw) (Indptr raw) (Ind raw)
              (divide_range (Data raw) lo hi (math_Sqrt sum)).

Definition normalise (raw : CSR F) : CSR F :=
  fold_left normalise_row (seq 0 (raw_I raw)) raw.

(** The block of [Transform] guarded by
    [t.l2Normalization != NoL2Normalization]. *)
Definition l2_normalise (mode : Z) (product : CSR F) : CSR F :=
  if Z.eqb mode NoL2Normalization then product
  else
    let product :=
      if Z.eqb mode ColBasedL2Normalization then transpose product else product in
    let product := normalise product in
    if Z.eqb mode ColBasedL2Normalization then transpose product else product.

Definition Transform (t : TfidfTransformer) (matrix : Matrix F)
  : outcome (CSR F * option error) :=
  let matrix := to_csr matrix in
  match Mul (transform t) matrix with
  | Panicked p => Panicked p
  | Returned product => Returned (l2_normalise (l2Normalization t) product, None)
  end.

(** [FitTransform] returns what [Transform] returns; the receiver is left
    as [Fit] left it. *)
Definition FitTransform (t : TfidfTransformer) (matrix : Matrix F)
  : TfidfTransformer * outcome (CSR F * option error) :=
  let matrix := to_csr matrix in
  let t := Fit t matrix in
  (t, Transform t matrix).

(** What the normalization loop does to the values of one row: the sum
    of squares the first inner loop computes, and the row after the
    second. *)
Definition sum_sq_values (xs : list F) : F :=
  fold_left (fun s x => f_add s (f_mul x x)) xs f_zero.

Definition norm_values (xs : list F) : list F :=
  if f_eq0 (sum_sq_values xs) then xs
  else map (fun x => f_div x (math_Sqrt (sum_sq_values xs))) xs.

Definition norm_row (row : list (nat * F)) : list (nat * F) :=
  combine (map fst row) (norm_values (map snd row)).

End Transformer.
Arguments TfidfTransformer F : clear implicits.

(** *** Persistence

    [Save] and [Load] pass the model to [DIA.MarshalBinaryTo] and
    [DIA.UnmarshalBinaryFrom] of package [sparse].  The byte layout is
    that package's own, so both are parameters here: the first appends
    what it writes to the bytes a writer holds and reports the writer's
    error, the second reads one model off the front of a stream, or
    fails. *)
Section Persistence.
Context {F : Type}.
Variable MarshalBinaryTo : DIA F -> list Byte.byte -> list Byte.byte * option error.
Variable UnmarshalBinaryFrom :
  list Byte.byte -> error + (DIA F * list Byte.byte).

Definition Save (t : TfidfTransformer F) (w : list Byte.byte)
  : outcome (list Byte.byte * option error) :=
  match transform t with
  | None => Panicked NilDereference
  | Some model => Returned (MarshalBinaryTo model w)
  end.

(** [Load] returns the receiver as the call leaves it, and the error. *)
Definition Load (t : TfidfTransformer F) (r : list Byte.byte)
  : TfidfTransformer F * option error :=
  match UnmarshalBinaryFrom r with
  | inl err => (t, Some err)
  | inr (model, _) => (set_transform t model, None)
  end.

End Persistence.

End Tfidf.

(** ** The transformer over a store of slices

    In Go the matrices are pointers: the slices [Indptr], [Ind] and
    [Data] of a compressed-row matrix and the diagonal of a model live
    in memory that several values may share, and the normalization loop
    of [Transform] writes into [rawProduct.Data] in place.  [Heap] runs
    [Fit] and [Transform] over a store that maps the address of every
    slice to its contents, so that what is written, and where, can be
    stated. *)

Module Heap.
Import Sparse Tfidf.

Section Heap.
Context {F : Type} `{Float64 F}.

Inductive slice : Type :=
  | Ints (l : list nat)        (* a []int *)
  | Floats (l : list F).       (* a []float64 *)

Local Abbreviation store := (gmap nat slice).

(** [make] and [append] on a nil slice: a slice at an address not in use. *)
Definition alloc (s : store) (v : slice) : store * nat :=
  let l := fresh (dom s) in (<[ l := v ]> s, l).

Definition ints_at (s : store) (l : nat) : list nat :=
  match s !! l with
  | Some (Ints v) => v
  | _ => []
  end.

Definition floats_at (s : store) (l : nat) : list F :=
  match s !! l with
  | Some (Floats v) => v
  | _ => []
  end.

(** A [sparse.CSR] value: its dimensions and the addresses of its slices. *)
Record csr_ref : Type := {
  ref_I : nat;
  ref_J : nat;
  ref_Indptr : nat;
  ref_Ind : nat;
  ref_Data : nat
}.

(** A [sparse.DIA] value. *)
Record dia_ref : Type := {
  ref_m : nat;
  ref_n : nat;
  ref_diagonal : nat
}.

Definition read_csr (s : store) (r : csr_ref) : CSR F :=
  NewCSR (ref_I r) (ref_J r)
         (ints_at s (ref_Indptr r)) (ints_at s (ref_Ind r))
         (floats_at s (ref_Data r)).

Definition read_dia (s : store) (d : dia_ref) : DIA F :=
  NewDIA (ref_m d) (ref_n d) (floats_at s (ref_diagonal d)).

(** A compressed-row matrix built in slices of its own. *)
Definition alloc_csr (s : store) (c : CSR F) : store * csr_ref :=
  let '(s, p) := alloc s (Ints (Indptr c)) in
  let '(s, i) := alloc s (Ints (Ind c)) in
  let '(s, d) := alloc s (Floats (Data c)) in
  (s, {| ref_I := raw_I c; ref_J := raw_J c;
         ref_Indptr := p; ref_Ind := i; ref_Data := d |}).

(** The caller's matrix: a [*sparse.CSR]; another sparse format, whose
    [ToCSR()] reads the store and builds a matrix; or any other matrix,
    whose [At] reads the store. *)
Inductive matrix_ref : Type :=
  | RefCSR (r : csr_ref)
  | RefConv (to_csr : store -> CSR F)
  | RefAny (rows cols : nat) (at_ : store -> nat -> nat -> F).

(** The matrix a reference stands for in a given store. *)
Definition view (s : store) (m : matrix_ref) : Matrix F :=
  match m with
  | RefCSR r => MatCSR (read_csr s r)
  | RefConv to_csr => MatConv {| ToCSR := to_csr s |}
  | RefAny rows cols at_ =>
      MatAny {| any_rows := rows; any_cols := cols; any_At := at_ s |}
  end.

(** The receiver [t]; its model is a pointer. *)
Record transformer_ref : Type := {
  transform_ref : option dia_ref;
  weightPadding_ref : F;
  l2Normalization_ref : Z
}.

Definition view_transformer (s : store) (t : transformer_ref) : TfidfTransformer F :=
  {| transform := option_map (read_dia s) (transform_ref t);
     weightPadding := weightPadding_ref t;
     l2Normalization := l2Normalization_ref t |}.

(** [matrix = t.ToCSR()]: the receiver itself for a [*sparse.CSR], a new
    matrix for another format. *)
Definition to_csr_h (s : store) (m : matrix_ref) : store * matrix_ref :=
  match m with
  | RefConv to_csr => let '(s, r) := alloc_csr s (to_csr s) in (s, RefCSR r)
  | _ => (s, m)
  end.

Definition Fit_h (s : store) (t : transformer_ref) (m : matrix_ref)
  : store * transformer_ref :=
  let '(s, m) := to_csr_h s m in
  let rows := fst (Dims (view s m)) in
  let '(s, w) := alloc s (Floats (weights (weightPadding_ref t) (view s m))) in
  (s, {| transform_ref :=
           Some {| ref_m := rows; ref_n := rows; ref_diagonal := w |};
         weightPadding_ref := weightPadding_ref t;
         l2Normalization_ref := l2Normalization_ref t |}).

(** [product.Clone(product.T().(...).ToCSR())]: the transpose is built in
    slices of its own, which become those of [product]. *)
Definition clone_transpose (s : store) (product : csr_ref) : store * csr_ref :=
  alloc_csr s (transpose (read_csr s product)).

(** The normalization loop: every write goes to [rawProduct.Data]. *)
Definition normalise_h (s : store) (product : csr_ref) : store :=
  <[ ref_Data product := Floats (Data (normalise (read_csr s product))) ]> s.

Definition l2_normalise_h (mode : Z) (s : store) (product : csr_ref)
  : store * csr_ref :=
  if Z.eqb mode NoL2Normalization then (s, product)
  else
    let '(s, product) :=
      if Z.eqb mode ColBasedL2Normalization then clone_transpose s product
      else (s, product) in
    let s := normalise_h s product in
    if Z.eqb mode ColBasedL2Normalization then clone_transpose s product
    else (s, product).

Definition Transform_h (s : store) (t : transformer_ref) (m : matrix_ref)
  : outcome (store * csr_ref * option error) :=
  let '(s, m) := to_csr_h s m in
  match Mul (option_map (read_dia s) (transform_ref t)) (view s m) with
  | Panicked p => Panicked p
  | Returned c =>
      let '(s, product) := alloc_csr s c in
      let '(s, product) := l2_normalise_h (l2Normalization_ref t) s product in
      Returned (s, product, None)
  end.

(** [s'] extends [s]: every slice of [s] is in [s'], unchanged. *)
Definition preserves (s s' : store) : Prop :=
  forall l, l ∈ dom s -> s' !! l = s !! l.

(** The slices of [r] are outside [s]. *)
Definition fresh_for (s : store) (r : csr_ref) : Prop :=
  (ref_Indptr r ∉ dom s) /\ (ref_Ind r ∉ dom s) /\ (ref_Data r ∉ dom s).

(** The data slice of [r] is neither of its two index slices. *)
Definition separate (r : csr_ref) : Prop :=
  ref_Data r <> ref_Indptr r /\ ref_Data r <> ref_Ind r.

End Heap.
Arguments slice F : clear implicits.
Arguments matrix_ref F : clear implicits.
Arguments transformer_ref F : clear implicits.
End Heap.

(** ** Exact arithmetic

    The spec states its formulas over the real numbers.  [Exact] reads
    [float64] as [R]: every operation is the exact one, without
    rounding, overflow or NaN. *)

Module Exact.
Import Sparse Tfidf.

Definition Req0 (x : R) : bool := if Req_dec_T x 0%R then true else false.

#[export] Instance real_float64 : Float64 R := {
  f_zero := 0%R;
  f_add := Rplus;
  f_mul := Rmult;
  f_div := Rdiv;
  f_eq0 := Req0;
  math_Log := ln;
  math_Sqrt := sqrt;
  float64_of_int := IZR
}.

(** The sum of the squares of a list of values. *)
Definition sum_sq (xs : list R) : R :=
  fold_left (fun s x => (s + x * x)%R) xs 0%R.

Local Open Scope R_scope.

(** Matrices without stored zeros

    The formulas of the spec, for the matrices on which both paths of
    [Fit] count the same thing: any matrix read cell by cell, and a
    compressed-row matrix every row of which stores each column at most
    once, within the width, and stores no zero. *)

Definition value_at (row : list (nat * R)) (j : nat) : R :=
  match find (fun e => Nat.eqb (fst e) j) row with
  | Some e => snd e
  | None => 0
  end.

Definition clean_row (n : nat) (row : list (nat * R)) : Prop :=
  List.NoDup (map fst row)
  /\ List.Forall (fun e => (fst e < n)%nat /\ snd e <> 0) row.

Definition clean (c : CSR R) : Prop :=
  forall i, (i < raw_I c)%nat -> clean_row (raw_J c) (row_entries c i).

Definition clean_matrix (matrix : Matrix R) : Prop :=
  match csr_of matrix with
  | Some c => clean c
  | None => True
  end.

(** The document frequency of term [i] in the words of the spec: the
    number of documents (columns) with a non-zero entry in row [i]. *)
Definition document_frequency (matrix : Matrix R) (i : nat) : nat :=
  length (List.filter (fun j => negb (Req0 (At matrix i j)))
                      (seq 0%nat (snd (Dims matrix)))).

End Exact.

(** ** A byte layout for the persisted model

    The spec leaves the layout to the implementation: the dimensions,
    then the weights in index order, each in a fixed width.  [Layout]
    is one such layout, little-endian throughout, the two dimensions and
    every weight in 64 bits; a weight is written as the 64-bit image
    [math.Float64bits] gives, and is represented here by that image. *)

Module Layout.
Import Sparse.
Local Open Scope N_scope.

Definition byte_of (v : N) : Byte.byte :=
  match Byte.of_N (v mod 256) with
  | Some b => b
  | None => Byte.x00
  end.

Fixpoint le_bytes (width : nat) (v : N) : list Byte.byte :=
  match width with
  | O => []
  | S width => byte_of v :: le_bytes width (v / 256)
  end.

Fixpoint le_value (bs : list Byte.byte) : N :=
  match bs with
  | [] => 0
  | b :: bs => Byte.to_N b + 256 * le_value bs
  end.

Definition put_uint64 (v : N) : list Byte.byte := le_bytes 8 v.

Definition get_uint64 (r : list Byte.byte) : option (N * list Byte.byte) :=
  if Nat.ltb (length r) 8 then None
  else Some (le_value (firstn 8 r), skipn 8 r).

Fixpoint get_values (count : nat) (r : list Byte.byte)
  : option (list N * list Byte.byte) :=
  match count with
  | O => Some ([], r)
  | S count =>
      match get_uint64 r with
      | None => None
      | Some (v, r) =>
          match get_values count r with
          | None => None
          | Some (vs, r) => Some (v :: vs, r)
          end
      end
  end.

(** Modelled from the spec: [DIA.MarshalBinaryTo] belongs to package
    [sparse] and is not among the sources.  The spec asks for the
    dimension followed by the weight values in index order, in a
    fixed-width 64-bit encoding, without header, checksum or compression;
    here both dimensions are written, then every weight image, each as
    eight bytes, after the bytes the writer already holds. *)
Definition MarshalBinaryTo (d : DIA N) (w : list Byte.byte)
  : list Byte.byte * option error :=
  (w ++ put_uint64 (N.of_nat (dia_m d)) ++ put_uint64 (N.of_nat (dia_n d))
     ++ flat_map put_uint64 (Diagonal d),
   None).

(** Modelled from the spec: [DIA.UnmarshalBinaryFrom] belongs to package
    [sparse] and is not among the sources.  It reads the layout above off
    the front of the stream and fails with a decode error on a stream
    that ends early. *)
Definition UnmarshalBinaryFrom (r : list Byte.byte)
  : error + (DIA N * list Byte.byte) :=
  match get_uint64 r with
  | None => inl "unexpected EOF"%string
  | Some (m, r) =>
      match get_uint64 r with
      | None => inl "unexpected EOF"%string
      | Some (n, r) =>
          match get_values (N.to_nat (N.min m n)) r with
          | None => inl "unexpected EOF"%string
          | Some (vs, r) => inr (NewDIA (N.to_nat m) (N.to_nat n) vs, r)
          end
      end
  end.

End Layout.

(** ** Inputs

    The matrices, transformers and streams the examples below run on. *)

Module Scenarios.
Import Sparse Tfidf Heap Exact.
Local Open Scope R_scope.

(** *** A stored zero

    A compressed-row matrix may hold a zero among its stored entries, as
    [NewCSR(1, 1, []int{0, 1}, []int{0}, []float64{0})] does. *)

Definition stored_zero : CSR R := NewCSR 1 1 [0; 1]%nat [0%nat] [0].

(** The same contents as a matrix without [ToCSR]. *)
Definition dense_zero : AnyMatrix R :=
  {| any_rows := 1; any_cols := 1; any_At := fun _ _ => 0 |}.

(** One row holding a stored zero in column 0 and the count 3 in column 1. *)
Definition zero_and_three : CSR R := NewCSR 1 2 [0; 2]%nat [0; 1]%nat [0; 3].

(** *** A model of the wrong size *)

Definition two_terms : TfidfTransformer R :=
  {| transform := Some (NewDIA 2 2 [1; 1]); weightPadding := 0;
     l2Normalization := 0 |}.

(** *** The scenario of the spec

    Three terms, four documents: term 0 occurs in all four, term 1 in
    documents 0 and 2, term 2 in none. *)

Definition corpus : CSR R :=
  NewCSR 3 4 [0; 4; 6; 6]%nat [0; 1; 2; 3; 0; 2]%nat [1; 1; 1; 1; 2; 1].

Definition padded : TfidfTransformer R :=
  SetWeightPadding NewTfidfTransformer 1.

(** One row with the values 3 and 4. *)
Definition three_four : CSR R := NewCSR 1 2 [0; 2]%nat [0; 1]%nat [3; 4].

(** A saved model of three weights (0, ln(5/3), ln 5 as float64 images)
    loaded into a transformer that held another model. *)
Definition saved_model : DIA N :=
  NewDIA 3 3 [0%N; 4602776327722964050%N; 4609927083155361075%N].

Definition saving : TfidfTransformer N :=
  {| transform := Some saved_model; weightPadding := 0%N; l2Normalization := 0 |}.

Definition loading : TfidfTransformer N :=
  {| transform := Some (NewDIA 1 1 [4607182418800017408%N]);
     weightPadding := 0%N; l2Normalization := 1 |}.

Definition saved_stream : list Byte.byte :=
  Eval vm_compute in fst (Layout.MarshalBinaryTo saved_model []).

(** A store that holds the diagonal of a one-term model, a transformer
    in row mode that points to it, and a 1-by-1 matrix read through [At]. *)
Definition model_store : gmap nat (slice R) := {[ 0%nat := Floats [1] ]}.

Definition fitted_ref : transformer_ref R :=
  {| transform_ref := Some {| ref_m := 1; ref_n := 1; ref_diagonal := 0 |};
     weightPadding_ref := 0;
     l2Normalization_ref := 1 |}.

Definition one_cell : matrix_ref R := RefAny 1 1 (fun _ _ _ => 2).

End Scenarios.

(** ** The transposing transformer

    [TransposeTransformer] of the file transposer.go: a transformer
    without state whose [Transform] returns the transpose of the
    matrix. *)

Module Transposer.
Import Sparse Tfidf.

Section Transposer.
Context {F : Type} `{Float64 F}.

(** What [matrix.T()] is for a matrix without [ToCSR]: the compressed-row
    form ([ToCSR()]) of the value when it is a [*sparse.CSC], nothing
    when it is of another type (gonum's own matrices return a
    [mat.Transpose]). *)
Variable any_T : AnyMatrix F -> option (CSR F).

(** [type TransposeTransformer struct {}] *)
Inductive TransposeTransformer : Type := transposer.

Definition NewTransposeTransformer : TransposeTransformer := transposer.

(** A call returns a matrix and an error, or panics where [matrix.T()]
    is asserted to be a [*sparse.CSC] and is not. *)
Inductive transposed : Type :=
  | Transposed (result : CSR F) (err : option error)
  | AssertionPanic.

(** [Fit] does not alter the transformer. *)
Definition Fit (t : TransposeTransformer) (matrix : Matrix F) : TransposeTransformer :=
  t.

Definition Transform (t : TransposeTransformer) (matrix : Matrix F) : transposed :=
  let matrix := to_csr matrix in
  match matrix with
  | MatCSR c => Transposed (transpose c) None
  | MatConv tc => Transposed (transpose (ToCSR tc)) None
  | MatAny g =>
      match any_T g with
      | Some csc => Transposed csc None
      | None => AssertionPanic
      end
  end.

(** The receiver as the call leaves it, and what the call returns. *)
Definition FitTransform (t : TransposeTransformer) (matrix : Matrix F)
  : TransposeTransformer * transposed :=
  let matrix := to_csr matrix in
  let t := Fit t matrix in
  (t, Transform t matrix).

End Transposer.
Arguments transposed F : clear implicits.
End Transposer.

(** ** Whole numbers as values

    A second reading of the operations, over the natural numbers, under
    which every definition computes and a model has a byte image
    ([Layout]). *)

Module Whole.

#[export] Instance whole_float64 : Float64 N := {
  f_zero := 0%N;
  f_add := N.add;
  f_mul := N.mul;
  f_div := N.div;
  f_eq0 := N.eqb 0%N;
  math_Log := N.log2;
  math_Sqrt := N.sqrt;
  float64_of_int := Z.to_N
}.

End Whole.

(** ** Slices in range

    Go panics on an index outside a slice.  The reads of the code stay
    inside the slices of a compressed-row matrix when [Indptr] has one
    entry more than the matrix has rows, does not decrease, and ends
    within [Ind] and [Data], which have one length. *)

Module Storage.
Import Sparse.

Section Storage.
Context {F : Type} `{Float64 F}.

Definition in_range (c : CSR F) : Prop :=
  length (Indptr c) = S (raw_I c)
  /\ (forall i, i < raw_I c -> nth i (Indptr c) 0 <= nth (i + 1) (Indptr c) 0)
  /\ nth (raw_I c) (Indptr c) 0 <= length (Ind c)
  /\ length (Ind c) = length (Data c).

Definition well_stored (matrix : Matrix F) : Prop :=
  match csr_of matrix with
  | Some c => in_range c
  | None => True
  end.

End Storage.
End Storage.

(** ** Columns *)

Module Columns.
Import Sparse Tfidf Exact.

(** The sum of the squares of the cells of column [j]. *)
Definition column_sum_sq (c : CSR R) (j : nat) : R :=
  sum_sq (map (fun i => CSR_At c i j) (seq 0 (raw_I c))).

(** No row of the matrix stores a column twice. *)
Definition distinct_columns (matrix : Matrix R) : Prop :=
  match csr_of matrix with
  | Some c => forall i, List.NoDup (map fst (row_entries c i))
  | None => True
  end.

End Columns.

(** ** More inputs *)

Module Inputs.
Import Sparse Tfidf Exact Scenarios.
Local Open Scope R_scope.

(** The scenario of the spec with the counts of term 1 changed: the same
    stored positions, other values. *)
Definition corpus_counts : CSR R :=
  NewCSR 3 4 [0; 4; 6; 6]%nat [0; 1; 2; 3; 0; 2]%nat [2; 1; 5; 1; 7; 3].

(** Two 1-by-2 matrices without [ToCSR], zero in the same cell. *)
Definition two_and_zero : AnyMatrix R :=
  {| any_rows := 1; any_cols := 2;
     any_At := fun _ j => match j with O => 2 | _ => 0 end |}.

Definition five_and_zero : AnyMatrix R :=
  {| any_rows := 1; any_cols := 2;
     any_At := fun _ j => match j with O => 5 | _ => 0 end |}.

(** A transformer fitted on the scenario of the spec, without padding. *)
Definition fitted : TfidfTransformer R :=
  Fit NewTfidfTransformer (MatCSR corpus).

(** A 3-by-2 matrix of whole numbers, read cell by cell. *)
Definition whole_cells : Matrix N :=
  MatAny {| any_rows := 3; any_cols := 2;
            any_At := fun i j => N.of_nat (i + j) |}.

(** A matrix whose [T()] is one of gonum's, not a compressed-column one. *)
Definition gonum_T (g : AnyMatrix R) : option (CSR R) := None.

End Inputs.

(** ** float64 as binary64

    A third reading of the operations: the IEEE 754 binary64 numbers,
    whose sum, product, quotient and square root round to nearest even
    as Go's [+], [*], [/] and [math.Sqrt] do; a sum that overflows is
    [+Inf], a product that underflows is 0.  [x == 0] holds for both
    zeros and for no NaN.  The conversion of an [int] rounds to nearest
    even as well.  [math.Log] is not one of the primitive operations and
    stays a parameter. *)

Module Binary64.
Import Sparse Tfidf.
Import PrimFloat.

(** [float64(i)] for an [int] [i], which lies between -2^63 and 2^63-1. *)
Definition float64 (z : Z) : PrimFloat.float :=
  match z with
  | Z0 => PrimFloat.zero
  | Zpos _ => PrimFloat.of_uint63 (Uint63.of_Z z)
  | Zneg _ =>
      if Z.eqb z (- 2 ^ 63) then (-0x1p+63)%float
      else PrimFloat.opp (PrimFloat.of_uint63 (Uint63.of_Z (- z)))
  end.

Definition binary64 (Log : PrimFloat.float -> PrimFloat.float)
  : Float64 PrimFloat.float := {|
  f_zero := PrimFloat.zero;
  f_add := PrimFloat.add;
  f_mul := PrimFloat.mul;
  f_div := PrimFloat.div;
  f_eq0 := fun x => PrimFloat.eqb x PrimFloat.zero;
  math_Log := Log;
  math_Sqrt := PrimFloat.sqrt;
  float64_of_int := float64
|}.

Local Open Scope float_scope.

Definition tiny : float := 0x1.87e92154ef7acp-665.

(** One term, two documents, every count the same:
    [NewCSR(1, 2, []int{0, 2}, []int{0, 1}, []float64{x, x})]. *)
Definition one_row (x : float) : CSR float :=
  NewCSR 1 2 [0; 2]%nat [0; 1]%nat [x; x].

(** A transformer whose model is the single weight 1. *)
Definition unit_weight (mode : Z) : TfidfTransformer float :=
  {| transform := Some (NewDIA 1 1 [1]); weightPadding := 1;
     l2Normalization := mode |}.


End Binary64.

(** * Facts about the matrix values *)

Module SparseFacts.
Import Sparse.

Section Lists.
Context {A : Type}.

Lemma nth_middle_range (a b c : list A) (d : A) :
  map (fun k => nth k (a ++ b ++ c) d) (seq (length a) (length b)) = b.
Proof.
  revert a. induction b as [|x b IH]; intros a; simpl; [reflexivity|].
  f_equal.
  - rewrite app_nth2 by lia. now rewrite Nat.sub_diag.
  - specialize (IH (a ++ [x])).
    rewrite length_app in IH. simpl in IH.
    rewrite Nat.add_1_r in IH. rewrite <- IH at 2.
    apply map_ext. intros k. now rewrite <- app_assoc.
Qed.

Lemma map_pair_combine {B C : Type} (f : A -> B) (g : A -> C) (l : list A) :
  map (fun k => (f k, g k)) l = combine (map f l) (map g l).
Proof. induction l; simpl; congruence. Qed.

End Lists.

Lemma combine_fst_snd {A B : Type} (l : list (A * B)) :
  combine (map fst l) (map snd l) = l.
Proof. induction l as [|[a b] l IH]; simpl; congruence. Qed.

Section Rows.
Context {F : Type} `{Float64 F}.

Lemma offsets_length (s : nat) (rows : list (list (nat * F))) :
  length (offsets s rows) = S (length rows).
Proof. revert s; induction rows; intros; simpl; auto. Qed.

Lemma offsets_at (pre rest : list (list (nat * F))) (s : nat) :
  nth (length pre) (offsets s (pre ++ rest)) 0 = s + length (concat pre).
Proof.
  revert s. induction pre as [|r pre IH]; intros s.
  - destruct rest; simpl; lia.
  - cbn [app length concat offsets nth]. rewrite IH, length_app. lia.
Qed.

Lemma offsets_next (pre : list (list (nat * F))) row post (s : nat) :
  nth (length pre + 1) (offsets s (pre ++ row :: post)) 0
  = s + length (concat pre) + length row.
Proof.
  replace (pre ++ row :: post) with ((pre ++ [row]) ++ post)
    by now rewrite <- app_assoc.
  replace (length pre + 1) with (length (pre ++ [row]))
    by (rewrite length_app; reflexivity).
  rewrite offsets_at, concat_app, length_app. simpl.
  rewrite app_nil_r. lia.
Qed.

(** Reading a row back from the storage [csr_of_rows] lays out. *)
Lemma row_entries_csr_of_rows (r c : nat) pre row post :
  row_entries (csr_of_rows r c (pre ++ row :: post)) (length pre) = row.
Proof.
  unfold row_entries, csr_of_rows; cbn [Indptr Ind Data].
  rewrite offsets_next, offsets_at. cbn [Nat.add].
  replace (length (concat pre) + length row - length (concat pre))
    with (length row) by lia.
  rewrite map_pair_combine.
  rewrite !map_app, !concat_app. cbn [map concat].
  assert (L1 : length (concat pre) = length (concat (map (map fst) pre))).
  { clear. induction pre; simpl; [reflexivity|].
    rewrite !length_app, length_map. lia. }
  assert (L2 : length (concat pre) = length (concat (map (map snd) pre))).
  { clear. induction pre; simpl; [reflexivity|].
    rewrite !length_app, length_map. lia. }
  rewrite L1 at 1. rewrite L2.
  rewrite <- (length_map fst row) at 1.
  rewrite nth_middle_range.
  rewrite <- (length_map snd row).
  rewrite nth_middle_range.
  apply combine_fst_snd.
Qed.

Lemma row_entries_nth (r c : nat) (rows : list (list (nat * F))) (i : nat) :
  i < length rows ->
  row_entries (csr_of_rows r c rows) i = nth i rows [].
Proof.
  intros Hi.
  destruct (nth_split rows [] Hi) as (pre & post & Hrows & Hlen).
  rewrite Hrows at 1. rewrite <- Hlen.
  apply row_entries_csr_of_rows.
Qed.

Lemma offsets_lengths (s : nat) (rows rows' : list (list (nat * F))) :
  map (@length _) rows = map (@length _) rows' ->
  offsets s rows = offsets s rows'.
Proof.
  revert s rows'. induction rows as [|r rows IH]; intros s [|r' rows'] E;
    try discriminate; [reflexivity|].
  simpl in E. injection E as E1 E2. simpl. rewrite E1. f_equal. now apply IH.
Qed.

End Rows.
End SparseFacts.

(** * The byte layout reads back what it writes *)

Module LayoutFacts.
Import Sparse Layout.
Local Open Scope N_scope.

Lemma byte_of_value (v : N) : Byte.to_N (byte_of v) = v mod 256.
Proof.
  unfold byte_of. destruct (Byte.of_N (v mod 256)) as [b|] eqn:E.
  - now apply Byte.to_of_N.
  - apply Byte.of_N_None_iff in E.
    pose proof (N.mod_upper_bound v 256). lia.
Qed.

Lemma le_bytes_length (width : nat) (v : N) : length (le_bytes width v) = width.
Proof. revert v. induction width; intros; simpl; auto. Qed.

Lemma le_value_le_bytes (width : nat) (v : N) :
  v < 256 ^ N.of_nat width -> le_value (le_bytes width v) = v.
Proof.
  revert v. induction width as [|width IH]; intros v Hv.
  - cbn in *. lia.
  - cbn [le_bytes le_value]. rewrite byte_of_value, IH.
    + rewrite N.add_comm. symmetry. apply N.div_mod. lia.
    + rewrite Nat2N.inj_succ, N.pow_succ_r' in Hv.
      apply N.Div0.div_lt_upper_bound. exact Hv.
Qed.

Lemma get_uint64_put (v : N) (rest : list Byte.byte) :
  v < 2 ^ 64 -> get_uint64 (put_uint64 v ++ rest) = Some (v, rest).
Proof.
  intros Hv. unfold get_uint64, put_uint64.
  pose proof (le_bytes_length 8 v) as L.
  rewrite length_app, L. cbn [Nat.ltb Nat.leb Nat.add].
  rewrite <- L at 1. rewrite firstn_app, firstn_all, Nat.sub_diag.
  cbn [firstn]. rewrite app_nil_r.
  rewrite <- L at 2. rewrite skipn_app, skipn_all, Nat.sub_diag.
  cbn [skipn app]. rewrite le_value_le_bytes; [reflexivity|exact Hv].
Qed.

Lemma get_values_put (vs : list N) (rest : list Byte.byte) :
  List.Forall (fun v => v < 2 ^ 64) vs ->
  get_values (length vs) (flat_map put_uint64 vs ++ rest) = Some (vs, rest).
Proof.
  induction 1 as [|v vs Hv _ IH]; [reflexivity|].
  cbn [length flat_map get_values]. rewrite <- app_assoc.
  rewrite get_uint64_put by exact Hv. now rewrite IH.
Qed.

(** Every model whose dimensions and weight images fit 64 bits, and whose
    diagonal has the length of the shorter side, is read back from the
    bytes written for it. *)
Lemma layout_round_trip (d : DIA N) (rest : list Byte.byte) :
  N.of_nat (dia_m d) < 2 ^ 64 -> N.of_nat (dia_n d) < 2 ^ 64 ->
  length (Diagonal d) = Nat.min (dia_m d) (dia_n d) ->
  List.Forall (fun v => v < 2 ^ 64) (Diagonal d) ->
  UnmarshalBinaryFrom (fst (MarshalBinaryTo d []) ++ rest) = inr (d, rest).
Proof.
  intros Hm Hn Hlen Hvs. unfold UnmarshalBinaryFrom, MarshalBinaryTo.
  cbn [fst app]. rewrite <- !app_assoc.
  rewrite get_uint64_put by exact Hm.
  rewrite get_uint64_put by exact Hn.
  replace (N.to_nat (N.min (N.of_nat (dia_m d)) (N.of_nat (dia_n d))))
    with (length (Diagonal d)) by lia.
  rewrite get_values_put by exact Hvs.
  rewrite !Nat2N.id. destruct d; reflexivity.
Qed.

End LayoutFacts.

(** * Facts about the transformer *)

Module TfidfFacts.
Import Sparse Tfidf SparseFacts Scenarios.

Section Normalise.
Context {F : Type} `{Float64 F}.

Lemma fold_left_through_map {A B C : Type} (h : A -> B -> A) (f : C -> B) l a :
  fold_left (fun s j => h s (f j)) l a = fold_left h (map f l) a.
Proof. revert a; induction l; intros; simpl; auto. Qed.

Lemma sum_squares_middle (a b c : list F) :
  sum_squares (a ++ b ++ c) (length a) (length a + length b) = sum_sq_values b.
Proof.
  unfold sum_squares, sum_sq_values.
  replace (length a + length b - length a) with (length b) by lia.
  rewrite (fold_left_through_map (fun s x => f_add s (f_mul x x))
             (fun j => nth j (a ++ b ++ c) f_zero)).
  now rewrite nth_middle_range.
Qed.

Lemma divide_range_middle (a b c : list F) (s : F) :
  divide_range (a ++ b ++ c) (length a) (length a + length b) s
  = a ++ map (fun x => f_div x s) b ++ c.
Proof.
  unfold divide_range.
  replace (length a + length b - length a) with (length b) by lia.
  revert a. induction b as [|x b IH]; intros a; [reflexivity|].
  cbn [length seq fold_left map app].
  rewrite app_nth2 by lia. rewrite Nat.sub_diag. cbn [nth].
  rewrite insert_app_r_alt by lia. rewrite Nat.sub_diag.
  cbn [insert list_insert].
  specialize (IH (a ++ [f_div x s])).
  rewrite length_app in IH. cbn [length] in IH.
  rewrite Nat.add_1_r in IH.
  rewrite <- !app_assoc in IH. exact IH.
Qed.

Lemma norm_values_length (xs : list F) :
  length (norm_values xs) = length xs.
Proof.
  unfold norm_values. destruct (f_eq0 _); [reflexivity|apply length_map].
Qed.

Lemma norm_row_fst (row : list (nat * F)) : map fst (norm_row row) = map fst row.
Proof.
  unfold norm_row.
  generalize (norm_values_length (map snd row)). rewrite length_map.
  generalize (norm_values (map snd row)) as ys.
  induction row as [|[j x] row IH]; intros [|y ys] E; simpl in *;
    try discriminate; [reflexivity|].
  f_equal. apply IH. lia.
Qed.

Lemma norm_row_snd (row : list (nat * F)) :
  map snd (norm_row row) = norm_values (map snd row).
Proof.
  unfold norm_row.
  generalize (norm_values_length (map snd row)). rewrite length_map.
  generalize (norm_values (map snd row)) as ys.
  induction row as [|[j x] row IH]; intros [|y ys] E; simpl in *;
    try discriminate; [reflexivity|].
  f_equal. apply IH. lia.
Qed.

Lemma norm_row_length (row : list (nat * F)) : length (norm_row row) = length row.
Proof. rewrite <- (length_map fst), norm_row_fst. apply length_map. Qed.

Lemma nth_map_norm_row (rows : list (list (nat * F))) (i : nat) :
  nth i (map norm_row rows) [] = norm_row (nth i rows []).
Proof. exact (map_nth norm_row rows [] i). Qed.

(** A row after the loop, entry by entry. *)
Lemma norm_row_entries (row : list (nat * F)) :
  norm_row row
  = if f_eq0 (sum_sq_values (map snd row)) then row
    else map (fun e => (fst e, f_div (snd e)
                                 (math_Sqrt (sum_sq_values (map snd row)))))
             row.
Proof.
  unfold norm_row, norm_values.
  destruct (f_eq0 (sum_sq_values (map snd row))).
  - induction row as [|[j x] row IH]; cbn [map combine fst snd];
      [reflexivity|now rewrite IH].
  - generalize (math_Sqrt (sum_sq_values (map snd row))) as k. intros k.
    induction row as [|e row IH]; cbn [map combine]; [reflexivity|].
    now rewrite IH.
Qed.

(** One turn of the loop, on the row that follows [pre]. *)
Lemma normalise_row_step (r c : nat) pre row post :
  normalise_row (csr_of_rows r c (pre ++ row :: post)) (length pre)
  = csr_of_rows r c (pre ++ norm_row row :: post).
Proof.
  unfold normalise_row, csr_of_rows; cbn [Indptr Ind Data raw_I raw_J].
  rewrite offsets_next, offsets_at. cbn [Nat.add].
  rewrite !map_app, !concat_app. cbn [map concat].
  assert (L : length (concat pre) = length (concat (map (map snd) pre))).
  { clear. induction pre; simpl; [reflexivity|].
    rewrite !length_app, length_map. lia. }
  rewrite L. rewrite <- (length_map snd row).
  rewrite sum_squares_middle, divide_range_middle.
  rewrite norm_row_fst, norm_row_snd.
  assert (O : offsets 0 (pre ++ norm_row row :: post)
              = offsets 0 (pre ++ row :: post)).
  { apply offsets_lengths. rewrite !map_app. cbn [map].
    now rewrite norm_row_length. }
  rewrite O. unfold norm_values.
  destruct (f_eq0 (sum_sq_values (map snd row))); reflexivity.
Qed.

Lemma normalise_rows_from (r c : nat) post : forall pre,
  fold_left normalise_row (seq (length pre) (length post))
            (csr_of_rows r c (pre ++ post))
  = csr_of_rows r c (pre ++ map norm_row post).
Proof.
  induction post as [|row post IH]; intros pre; [reflexivity|].
  cbn [length seq fold_left map].
  rewrite normalise_row_step.
  specialize (IH (pre ++ [norm_row row])).
  rewrite length_app in IH. cbn [length] in IH. rewrite Nat.add_1_r in IH.
  rewrite <- !app_assoc in IH. exact IH.
Qed.

(** The loop over all rows of a matrix laid out by [csr_of_rows]. *)
Lemma normalise_csr_of_rows (c : nat) (rows : list (list (nat * F))) :
  normalise (csr_of_rows (length rows) c rows)
  = csr_of_rows (length rows) c (map norm_row rows).
Proof.
  unfold normalise. cbn [raw_I csr_of_rows].
  apply (normalise_rows_from (length rows) c rows []).
Qed.

End Normalise.

Section Generic.
Context {F : Type} `{Float64 F}.

Lemma to_csr_idem (matrix : Matrix F) : to_csr (to_csr matrix) = to_csr matrix.
Proof. destruct matrix; reflexivity. Qed.

Lemma Dims_to_csr (matrix : Matrix F) : Dims (to_csr matrix) = Dims matrix.
Proof. destruct matrix; reflexivity. Qed.

Lemma Fit_to_csr (t : TfidfTransformer F) (matrix : Matrix F) :
  Fit t (to_csr matrix) = Fit t matrix.
Proof. unfold Fit. now rewrite to_csr_idem. Qed.

Lemma Transform_to_csr (t : TfidfTransformer F) (matrix : Matrix F) :
  Transform t (to_csr matrix) = Transform t matrix.
Proof. unfold Transform. now rewrite to_csr_idem. Qed.

(** C7. [FitTransform] returns exactly what [Fit] followed by [Transform]
    on the same matrix returns, for every matrix, weight padding and
    normalization mode, and leaves the transformer in the state [Fit]
    leaves it in (which [Transform] does not change). *)
Theorem FitTransform_is_Fit_then_Transform
  (t : TfidfTransformer F) (matrix : Matrix F) :
  FitTransform t matrix = (Fit t matrix, Transform (Fit t matrix) matrix).
Proof.
  unfold FitTransform.
  now rewrite Fit_to_csr, Transform_to_csr.
Qed.

Lemma Transform_unfold (t : TfidfTransformer F) (matrix : Matrix F) (mode : Z) :
  Transform (SetL2Normalization t mode) matrix
  = match Mul (transform t) (to_csr matrix) with
    | Panicked p => Panicked p
    | Returned product => Returned (l2_normalise mode product, None)
    end.
Proof. reflexivity. Qed.

(** C5. Column-mode normalization is the row-mode procedure between two
    transpositions: with [weighted] the result without normalization,
    row mode returns [normalise weighted] and column mode returns the
    transpose of [normalise] of the transpose of [weighted]. *)
Theorem column_mode_is_transposed_row_mode
  (t : TfidfTransformer F) (matrix : Matrix F) :
  match Transform (SetL2Normalization t NoL2Normalization) matrix with
  | Panicked p =>
      Transform (SetL2Normalization t RowBasedL2Normalization) matrix = Panicked p
      /\ Transform (SetL2Normalization t ColBasedL2Normalization) matrix = Panicked p
  | Returned (weighted, err) =>
      Transform (SetL2Normalization t RowBasedL2Normalization) matrix
      = Returned (normalise weighted, err)
      /\ Transform (SetL2Normalization t ColBasedL2Normalization) matrix
         = Returned (transpose (l2_normalise RowBasedL2Normalization
                                             (transpose weighted)), err)
  end.
Proof.
  rewrite !Transform_unfold.
  destruct (Mul (transform t) (to_csr matrix)) as [product|p]; split; reflexivity.
Qed.

(** C3, as the code has it.  [Transform] has no error path: when it
    returns, the error is nil and the model's width is the matrix's row
    count; a model whose width differs makes the multiplication panic
    with the shape error, and a missing model is a nil dereference. *)
Theorem Transform_error_is_always_nil
  (t : TfidfTransformer F) (matrix : Matrix F) :
  match Transform t matrix with
  | Returned (_, err) =>
      err = None
      /\ exists model, transform t = Some model
                       /\ dia_n model = fst (Dims matrix)
  | Panicked p =>
      match transform t with
      | None => p = NilDereference
      | Some model => p = ErrShape /\ dia_n model <> fst (Dims matrix)
      end
  end.
Proof.
  unfold Transform, Mul. rewrite Dims_to_csr.
  destruct (transform t) as [model|]; [|reflexivity].
  destruct (Nat.eqb_spec (dia_n model) (fst (Dims matrix))) as [E|E].
  - split; [reflexivity|]. exists model. split; [reflexivity|exact E].
  - split; [reflexivity|exact E].
Qed.

(** What [Mul] returns is laid out row after row. *)
Lemma Mul_layout (a : option (DIA F)) (b : Matrix F) (product : CSR F) :
  Mul a b = Returned product ->
  exists rows, product = csr_of_rows (length rows) (raw_J product) rows.
Proof.
  unfold Mul. destruct a as [dia|]; [|discriminate].
  destruct (Nat.eqb _ _); [|discriminate].
  intros E. injection E as <-.
  destruct b; unfold mulDIACSR, mulDIAMat; eexists;
    cbn [raw_J csr_of_rows]; rewrite length_map, length_seq; reflexivity.
Qed.

(** Row mode on what [Mul] returned: shape and stored positions stay,
    the values of every row become [norm_values] of that row. *)
Lemma normalise_product (a : option (DIA F)) (b : Matrix F) (product : CSR F) :
  Mul a b = Returned product ->
  raw_I (normalise product) = raw_I product
  /\ raw_J (normalise product) = raw_J product
  /\ Indptr (normalise product) = Indptr product
  /\ Ind (normalise product) = Ind product
  /\ forall i, i < raw_I product ->
       map fst (row_entries (normalise product) i)
       = map fst (row_entries product i)
       /\ map snd (row_entries (normalise product) i)
          = norm_values (map snd (row_entries product i)).
Proof.
  intros E. destruct (Mul_layout _ _ _ E) as [rows Hrows].
  rewrite Hrows, normalise_csr_of_rows. cbn [raw_I raw_J Indptr Ind csr_of_rows].
  split; [reflexivity|]. split; [reflexivity|].
  split.
  { apply offsets_lengths. rewrite !map_map. apply map_ext.
    intros row. apply norm_row_length. }
  split.
  { f_equal. rewrite map_map. apply map_ext. intros row. apply norm_row_fst. }
  intros i Hi.
  rewrite !row_entries_nth by (rewrite ?length_map; exact Hi).
  rewrite nth_map_norm_row. split; [apply norm_row_fst|apply norm_row_snd].
Qed.

(** X3. Row mode for any reading of the float64 operations: against the
    result [weighted] of no normalization, the result keeps the shape and
    the stored positions, and the values of each row are those of
    [weighted] divided by [math.Sqrt] of the sum of their squares, or
    unchanged when that sum [== 0]. *)
Theorem row_mode_divides_rows (t : TfidfTransformer F) (matrix : Matrix F) :
  match Transform (SetL2Normalization t NoL2Normalization) matrix with
  | Panicked p =>
      Transform (SetL2Normalization t RowBasedL2Normalization) matrix = Panicked p
  | Returned (weighted, _) =>
      exists result,
        Transform (SetL2Normalization t RowBasedL2Normalization) matrix
        = Returned (result, None)
        /\ raw_I result = raw_I weighted /\ raw_J result = raw_J weighted
        /\ Indptr result = Indptr weighted /\ Ind result = Ind weighted
        /\ forall i, i < raw_I weighted ->
             map fst (row_entries result i) = map fst (row_entries weighted i)
             /\ map snd (row_entries result i)
                = let xs := map snd (row_entries weighted i) in
                  if f_eq0 (sum_sq_values xs) then xs
                  else map (fun x => f_div x (math_Sqrt (sum_sq_values xs))) xs
  end.
Proof.
  rewrite !Transform_unfold.
  destruct (Mul (transform t) (to_csr matrix)) as [product|p] eqn:E;
    [|reflexivity].
  change (l2_normalise NoL2Normalization product) with product.
  change (l2_normalise RowBasedL2Normalization product) with (normalise product).
  exists (normalise product). split; [reflexivity|].
  exact (normalise_product _ _ _ E).
Qed.



End Generic.

Section Persistence.
Context {F : Type}.
Variable MarshalBinaryTo : DIA F -> list Byte.byte -> list Byte.byte * option error.
Variable UnmarshalBinaryFrom :
  list Byte.byte -> error + (DIA F * list Byte.byte).

(** C10. [Load] installs a model only when decoding succeeds: if
    [UnmarshalBinaryFrom] fails, [Load] returns that error and the
    transformer is exactly as before; if [Load] returns no error, the
    stream decoded to the model now installed. *)
Theorem Load_failure_keeps_model (t : TfidfTransformer F) (r : list Byte.byte) :
  (forall err, UnmarshalBinaryFrom r = inl err ->
               Load UnmarshalBinaryFrom t r = (t, Some err))
  /\ (snd (Load UnmarshalBinaryFrom t r) = None ->
      exists model rest,
        UnmarshalBinaryFrom r = inr (model, rest)
        /\ fst (Load UnmarshalBinaryFrom t r) = set_transform t model).
Proof.
  unfold Load. split.
  - intros err E. now rewrite E.
  - destruct (UnmarshalBinaryFrom r) as [err|[model rest]]; cbn.
    + discriminate.
    + intros _. now exists model, rest.
Qed.

End Persistence.

(** A stream cut short is refused and the loading transformer keeps its
    model. *)
Example Load_truncated_stream :
  Load Layout.UnmarshalBinaryFrom loading (firstn 20 saved_stream)
  = (loading, Some "unexpected EOF"%string).
Proof. vm_compute. reflexivity. Qed.

End TfidfFacts.

(** * Save and Load over the byte layout *)

Module PersistenceFacts.
Import Sparse Tfidf Scenarios.

(** C8. Over the byte layout of [Layout]: for every transformer that holds
    a model as [Fit] builds them (square, one weight per row; dimension
    and weight images within 64 bits), [Save] returns without error
    having appended the bytes of the model to the writer, and [Load] of
    those bytes, whatever follows them in the stream, returns without
    error and leaves the loading transformer with exactly that model,
    same dimensions and same weight images, in place of any model it
    held; its padding and mode are untouched. *)
Theorem Save_then_Load_round_trip
  (t loader : TfidfTransformer N) (model : DIA N) (w : list Byte.byte) :
  transform t = Some model ->
  dia_m model = dia_n model ->
  length (Diagonal model) = dia_m model ->
  (N.of_nat (dia_m model) < 2 ^ 64)%N ->
  List.Forall (fun v => (v < 2 ^ 64)%N) (Diagonal model) ->
  exists bytes,
    Save Layout.MarshalBinaryTo t w = Returned (w ++ bytes, None)
    /\ forall rest,
         Load Layout.UnmarshalBinaryFrom loader (bytes ++ rest)
         = (set_transform loader model, None)
         /\ transform (fst (Load Layout.UnmarshalBinaryFrom loader (bytes ++ rest)))
            = Some model
         /\ weightPadding (fst (Load Layout.UnmarshalBinaryFrom loader (bytes ++ rest)))
            = weightPadding loader
         /\ l2Normalization (fst (Load Layout.UnmarshalBinaryFrom loader (bytes ++ rest)))
            = l2Normalization loader.
Proof.
  intros Hm Hsq Hlen Hdim Hvs.
  exists (fst (Layout.MarshalBinaryTo model [])). split.
  - unfold Save. rewrite Hm. reflexivity.
  - intros rest.
    assert (E : Load Layout.UnmarshalBinaryFrom loader
                  (fst (Layout.MarshalBinaryTo model []) ++ rest)
                = (set_transform loader model, None)).
    { unfold Load. rewrite LayoutFacts.layout_round_trip; try assumption.
      - reflexivity.
      - now rewrite <- Hsq.
      - rewrite <- Hsq, Nat.min_id. exact Hlen. }
    rewrite E. repeat split.
Qed.

Lemma Save_then_Load_round_trip_witness :
  exists bytes,
    Save Layout.MarshalBinaryTo saving [] = Returned ([] ++ bytes, None)
    /\ forall rest,
         Load Layout.UnmarshalBinaryFrom loading (bytes ++ rest)
         = (set_transform loading saved_model, None)
         /\ transform (fst (Load Layout.UnmarshalBinaryFrom loading (bytes ++ rest)))
            = Some saved_model
         /\ weightPadding (fst (Load Layout.UnmarshalBinaryFrom loading (bytes ++ rest)))
            = weightPadding loading
         /\ l2Normalization (fst (Load Layout.UnmarshalBinaryFrom loading (bytes ++ rest)))
            = l2Normalization loading.
Proof.
  apply (Save_then_Load_round_trip saving loading saved_model []).
  - reflexivity.
  - reflexivity.
  - reflexivity.
  - vm_compute. reflexivity.
  - repeat constructor.
Defined.

End PersistenceFacts.

(** * The formulas of the spec, in exact arithmetic *)

Module ExactFacts.
Import Sparse Tfidf SparseFacts TfidfFacts Exact Scenarios.
Local Open Scope R_scope.

Lemma Req0_true (x : R) : Req0 x = true <-> x = 0.
Proof. unfold Req0. destruct (Req_dec_T x 0); split; congruence. Qed.

Lemma Req0_false (x : R) : Req0 x = false <-> x <> 0.
Proof. unfold Req0. destruct (Req_dec_T x 0); split; congruence. Qed.

Lemma sum_sq_from (xs : list R) (a : R) :
  fold_left (fun s x => s + x * x) xs a = a + sum_sq xs.
Proof.
  unfold sum_sq. revert a. induction xs as [|x xs IH]; intros a; simpl.
  - lra.
  - rewrite IH, (IH (0 + x * x)). lra.
Qed.

Lemma sum_sq_cons (x : R) (xs : list R) : sum_sq (x :: xs) = x * x + sum_sq xs.
Proof. unfold sum_sq at 1. simpl. rewrite sum_sq_from. lra. Qed.

Lemma sum_sq_nonneg (xs : list R) : 0 <= sum_sq xs.
Proof.
  induction xs as [|x xs IH]; [unfold sum_sq; simpl; lra|].
  rewrite sum_sq_cons. nra.
Qed.

Lemma sum_sq_scaled (k : R) (xs : list R) :
  k <> 0 -> sum_sq (map (fun x => x / k) xs) = sum_sq xs / (k * k).
Proof.
  intros Hk. induction xs as [|x xs IH].
  - unfold sum_sq; simpl. field. exact Hk.
  - cbn [map]. rewrite !sum_sq_cons, IH. field. exact Hk.
Qed.

(** Dividing a row by its norm gives a row of norm one. *)
Lemma sum_sq_normalised (xs : list R) :
  sum_sq xs <> 0 -> sum_sq (map (fun x => x / sqrt (sum_sq xs)) xs) = 1.
Proof.
  intros Hs.
  assert (Hpos : 0 < sum_sq xs) by (pose proof (sum_sq_nonneg xs); lra).
  pose proof (sqrt_lt_R0 _ Hpos) as Hq.
  rewrite sum_sq_scaled by lra.
  rewrite sqrt_sqrt by lra. field. lra.
Qed.

Lemma norm_values_exact (xs : list R) :
  norm_values xs
  = if Req0 (sum_sq xs) then xs else map (fun x => x / sqrt (sum_sq xs)) xs.
Proof. reflexivity. Qed.

(** Row mode in exact arithmetic, against the weighted result [weighted]
    that no normalization returns: the result has the same shape and the same
    stored positions; in every row whose sum of squares is not zero each
    value is the weighted one divided by the square root of that sum, and
    the sum of squares of the row becomes 1; a row whose sum of squares
    is zero keeps its values. *)
Theorem row_mode_normalises_rows (t : TfidfTransformer R) (matrix : Matrix R) :
  match Transform (SetL2Normalization t NoL2Normalization) matrix with
  | Panicked p =>
      Transform (SetL2Normalization t RowBasedL2Normalization) matrix = Panicked p
  | Returned (weighted, _) =>
      exists result,
        Transform (SetL2Normalization t RowBasedL2Normalization) matrix
        = Returned (result, None)
        /\ raw_I result = raw_I weighted /\ raw_J result = raw_J weighted
        /\ Indptr result = Indptr weighted /\ Ind result = Ind weighted
        /\ forall i, (i < raw_I weighted)%nat ->
             let xs := map snd (row_entries weighted i) in
             let ys := map snd (row_entries result i) in
             map fst (row_entries result i) = map fst (row_entries weighted i)
             /\ (sum_sq xs <> 0 ->
                 ys = map (fun x => x / sqrt (sum_sq xs)) xs /\ sum_sq ys = 1)
             /\ (sum_sq xs = 0 -> ys = xs)
  end.
Proof.
  rewrite !Transform_unfold.
  destruct (Mul (transform t) (to_csr matrix)) as [product|p] eqn:E;
    [|reflexivity].
  change (l2_normalise NoL2Normalization product) with product.
  change (l2_normalise RowBasedL2Normalization product) with (normalise product).
  exists (normalise product). split; [reflexivity|].
  destruct (normalise_product _ _ _ E) as (HI & HJ & Hp & Hi & Hrows).
  repeat (split; [assumption|]).
  intros i Hlt. destruct (Hrows i Hlt) as [Hfst Hsnd].
  cbv zeta. rewrite Hsnd, norm_values_exact.
  split; [exact Hfst|]. split.
  - intros Hs. apply Req0_false in Hs as Hb. rewrite Hb.
    split; [reflexivity|]. now apply sum_sq_normalised.
  - intros Hs. apply Req0_true in Hs. now rewrite Hs.
Qed.


(** The loop on a row of norm 5. *)
Example normalise_three_four :
  normalise three_four = NewCSR 1 2 [0; 2]%nat [0; 1]%nat [3 / 5; 4 / 5].
Proof.
  unfold normalise, normalise_row, three_four.
  cbn [raw_I raw_J Indptr Ind Data seq fold_left nth Nat.add Nat.sub].
  unfold sum_squares, divide_range.
  cbn [seq fold_left nth Nat.sub f_add f_mul f_zero f_eq0 f_div math_Sqrt
       real_float64 insert list_insert].
  replace (0 + 3 * 3 + 4 * 4) with (5 * 5) by lra.
  rewrite (proj2 (Req0_false (5 * 5))) by lra.
  rewrite sqrt_square by lra. reflexivity.
Qed.

(** The transpose of the scenario of the spec. *)
Example transpose_corpus :
  transpose corpus
  = NewCSR 4 3 [0; 2; 3; 5; 6]%nat [0; 1; 0; 0; 1; 0]%nat [1; 2; 1; 1; 1; 1].
Proof. reflexivity. Qed.

(** *** The weight formula *)

Lemma wrap_int_small (z : Z) :
  (- 2 ^ 63 <= z < 2 ^ 63)%Z -> wrap_int z = z.
Proof. intros Hz. unfold wrap_int. rewrite Z.mod_small; lia. Qed.

Lemma float64_of_succ (n : nat) :
  (Z.of_nat n < 2 ^ 63 - 1)%Z ->
  float64_of_int (int_add 1 (Z.of_nat n)) = 1 + INR n.
Proof.
  intros Hn. unfold int_add. rewrite wrap_int_small by lia.
  cbn [float64_of_int real_float64].
  rewrite plus_IZR, <- INR_IZR_INZ. reflexivity.
Qed.

(** Within the range of [int], the weight is the formula of the spec. *)
Lemma idf_weight_exact (pad : R) (n df : nat) :
  (Z.of_nat n < 2 ^ 63 - 1)%Z -> (df <= n)%nat ->
  idf_weight pad n df = ln ((1 + INR n) / (1 + INR df)) + pad.
Proof.
  intros Hn Hdf. unfold idf_weight.
  rewrite !float64_of_succ by lia. reflexivity.
Qed.

(** X4. The padding shifts every weight: fitting with padding [p] gives the
    weights of padding 0, each plus [p]. *)
Theorem padding_shifts_weights (t : TfidfTransformer R) (matrix : Matrix R) (p : R) :
  option_map Diagonal (transform (Fit (SetWeightPadding t p) matrix))
  = option_map (fun d => map (fun w => w + p) (Diagonal d))
               (transform (Fit (SetWeightPadding t 0) matrix)).
Proof.
  unfold Fit, weights. destruct (Dims (to_csr matrix)) as [m n].
  cbn [transform set_transform option_map Diagonal weightPadding SetWeightPadding].
  f_equal.
  destruct (to_csr matrix); rewrite map_map; apply map_ext; intros i;
    unfold idf_weight; cbn [f_add real_float64]; lra.
Qed.

Lemma stored_zero_At (i j : nat) : At (MatCSR stored_zero) i j = 0.
Proof.
  cbn [At]. unfold CSR_At, row_entries. cbn [Indptr Ind Data stored_zero].
  destruct i as [|i].
  - cbn. destruct j; reflexivity.
  - replace (nth (S i + 1) [0%nat; 1%nat] 0%nat) with 0%nat
      by (rewrite Nat.add_1_r; destruct i; reflexivity).
    reflexivity.
Qed.

Lemma count_nonzero_stored_zero : count_nonzero (MatCSR stored_zero) 0 1 = 0%nat.
Proof.
  unfold count_nonzero. cbn [seq fold_left].
  rewrite stored_zero_At.
  change (f_eq0 0) with (Req0 0).
  now rewrite (proj2 (Req0_true 0) eq_refl).
Qed.

Lemma ln_2_pos : 0 < ln 2.
Proof. rewrite <- ln_1. apply ln_increasing; lra. Qed.

(** C1 at a stored zero.  The row has no non-zero entry, so its document
    frequency is 0 and the weight of the claim is [ln((1+1)/(1+0))] plus
    the padding; [Fit] takes [RowNNZ], which is 1, and the weight it
    stores is [ln((1+1)/(1+1))] plus the padding, that is the padding
    alone. *)
Theorem Fit_counts_a_stored_zero (t : TfidfTransformer R) :
  count_nonzero (MatCSR stored_zero) 0 1 = 0%nat
  /\ RowNNZ stored_zero 0 = 1%nat
  /\ transform (Fit t (MatCSR stored_zero))
     = Some (NewDIA 1 1 [ln ((1 + 1) / (1 + 1)) + weightPadding t])
  /\ ln ((1 + 1) / (1 + 1)) + weightPadding t
     <> ln ((1 + 1) / (1 + 0)) + weightPadding t.
Proof.
  split; [exact count_nonzero_stored_zero|].
  split; [reflexivity|].
  split.
  - unfold Fit, weights. cbn [to_csr Dims stored_zero raw_I raw_J seq map set_transform transform].
    change (RowNNZ _ 0) with 1%nat.
    rewrite idf_weight_exact by (cbn; lia). reflexivity.
  - replace ((1 + 1) / (1 + 1)) with 1 by (field; lra).
    replace ((1 + 1) / (1 + 0)) with 2 by (field; lra).
    rewrite ln_1. pose proof ln_2_pos. lra.
Qed.

(** C6 at a stored zero.  [stored_zero] and [dense_zero] have the same
    dimensions and the same value in every cell; the fast path of [Fit]
    gives the first the weight [ln(2/2)] plus the padding, the scan gives
    the second [ln(2/1)] plus the padding, and the two differ. *)
Theorem fast_path_differs_from_scan (t : TfidfTransformer R) :
  Dims (MatCSR stored_zero) = Dims (MatAny dense_zero)
  /\ (forall i j, At (MatCSR stored_zero) i j = At (MatAny dense_zero) i j)
  /\ transform (Fit t (MatCSR stored_zero))
     = Some (NewDIA 1 1 [ln (2 / 2) + weightPadding t])
  /\ transform (Fit t (MatAny dense_zero))
     = Some (NewDIA 1 1 [ln (2 / 1) + weightPadding t])
  /\ transform (Fit t (MatCSR stored_zero)) <> transform (Fit t (MatAny dense_zero)).
Proof.
  assert (E1 : transform (Fit t (MatCSR stored_zero))
               = Some (NewDIA 1 1 [ln (2 / 2) + weightPadding t])).
  { unfold Fit, weights. cbn [to_csr Dims stored_zero raw_I raw_J seq map set_transform transform].
    change (RowNNZ _ 0) with 1%nat.
    rewrite idf_weight_exact by (cbn; lia). cbn [INR].
    repeat f_equal; lra. }
  assert (E2 : transform (Fit t (MatAny dense_zero))
               = Some (NewDIA 1 1 [ln (2 / 1) + weightPadding t])).
  { unfold Fit, weights. cbn [to_csr Dims dense_zero any_rows any_cols seq map set_transform transform].
    unfold count_nonzero. cbn [seq fold_left At any_At].
    change (f_eq0 (any_At dense_zero 0 0)) with (Req0 0).
    rewrite (proj2 (Req0_true 0) eq_refl). cbn [negb].
    rewrite idf_weight_exact by (cbn; lia). cbn [INR].
    repeat f_equal; lra. }
  split; [reflexivity|].
  split; [intros i j; apply stored_zero_At|].
  split; [exact E1|]. split; [exact E2|].
  rewrite E1, E2. intros E. injection E as E.
  replace (2 / 2) with 1 in E by (field; lra).
  replace (2 / 1) with 2 in E by (field; lra).
  rewrite ln_1 in E. pose proof ln_2_pos. lra.
Qed.


Lemma Fit_zero_and_three :
  Fit NewTfidfTransformer (MatCSR zero_and_three)
  = set_transform NewTfidfTransformer (NewDIA 1 1 [0]).
Proof.
  unfold Fit, weights. cbn [to_csr Dims zero_and_three raw_I raw_J seq map].
  change (RowNNZ _ 0) with 2%nat.
  rewrite idf_weight_exact by (cbn; lia).
  cbn [weightPadding NewTfidfTransformer f_zero real_float64 INR].
  repeat f_equal.
  replace ((1 + (1 + 1)) / (1 + (1 + 1))) with 1 by (field; lra).
  rewrite ln_1. lra.
Qed.

(** C2 at a stored zero.  The row of [zero_and_three] has one non-zero
    entry among two documents, so the claim gives cell (0,1) the value
    [3 * ln((1+2)/(1+1))], which is not zero; [Fit] then [Transform],
    with no padding and no normalization, return a 1-by-2 matrix whose
    cell (0,1) is zero. *)
Theorem Fit_Transform_on_a_stored_zero :
  exists result,
    Transform (Fit NewTfidfTransformer (MatCSR zero_and_three))
              (MatCSR zero_and_three)
    = Returned (result, None)
    /\ (raw_I result, raw_J result) = Dims (MatCSR zero_and_three)
    /\ CSR_At result 0 1 = 0
    /\ At (MatCSR zero_and_three) 0 1 = 3
    /\ count_nonzero (MatCSR zero_and_three) 0 2 = 1%nat
    /\ 3 * ln ((1 + 2) / (1 + 1)) <> 0.
Proof.
  exists (csr_of_rows 1 2 [[]]).
  assert (Z0 : forall x, Req0 (x * 0) = true)
    by (intros x; apply Req0_true; lra).
  split.
  { rewrite Fit_zero_and_three. unfold Transform, Mul.
    cbn [transform set_transform to_csr dia_n Dims zero_and_three raw_I raw_J
         fst Nat.eqb l2Normalization NewTfidfTransformer].
    unfold l2_normalise, mulDIACSR, mul_row, scale_row, row_entries.
    cbn [zero_and_three dia_m raw_J seq map Diagonal nth_error Indptr Ind Data
         nth Nat.add Nat.sub fst snd Z.eqb NoL2Normalization List.filter f_eq0 f_mul
         real_float64].
    rewrite !Z0. reflexivity. }
  split; [reflexivity|].
  split; [reflexivity|].
  split; [reflexivity|].
  split.
  { unfold count_nonzero. cbn.
    rewrite (proj2 (Req0_true 0) eq_refl).
    rewrite (proj2 (Req0_false 3)) by lra. reflexivity. }
  replace ((1 + 2) / (1 + 1)) with (3 / 2) by (field; lra).
  assert (0 < ln (3 / 2)) by (rewrite <- ln_1; apply ln_increasing; lra).
  lra.
Qed.

(** C3 fails: the model has two terms, the matrix one row, and
    [Transform] does not return an error; it panics. *)
Lemma Transform_mismatch_is_a_panic :
  dia_n (NewDIA 2 2 [1; 1]) <> fst (Dims (MatAny dense_zero))
  /\ Transform two_terms (MatAny dense_zero) = Panicked ErrShape
  /\ ~ (exists result err,
          Transform two_terms (MatAny dense_zero) = Returned (result, Some err)).
Proof.
  split; [cbn; lia|]. split; [reflexivity|].
  intros (result & err & E). discriminate E.
Qed.


Lemma count_from (p : nat -> bool) (l : list nat) (a : nat) :
  fold_left (fun df j => if p j then S df else df) l a
  = (a + length (List.filter p l))%nat.
Proof.
  revert a. induction l as [|j l IH]; intros a; cbn [fold_left List.filter].
  - cbn. lia.
  - rewrite IH. destruct (p j); cbn [length]; lia.
Qed.

Lemma count_nonzero_is_document_frequency (matrix : Matrix R) (i : nat) :
  count_nonzero matrix i (snd (Dims matrix)) = document_frequency matrix i.
Proof. unfold count_nonzero. now rewrite count_from. Qed.

Lemma document_frequency_le (matrix : Matrix R) (i : nat) :
  (document_frequency matrix i <= snd (Dims matrix))%nat.
Proof.
  unfold document_frequency.
  assert (L : forall (p : nat -> bool) l,
            (length (List.filter p l) <= length l)%nat).
  { intros p l. induction l as [|j l IH]; cbn [List.filter length]; [lia|].
    destruct (p j); cbn [length]; lia. }
  specialize (L (fun j => negb (Req0 (At matrix i j)))
                (seq 0 (snd (Dims matrix)))).
  now rewrite length_seq in L.
Qed.

Lemma value_at_nonzero (n : nat) (row : list (nat * R)) (j : nat) :
  clean_row n row ->
  (negb (Req0 (value_at row j)) = true <-> In j (map fst row)).
Proof.
  intros [_ Hall]. unfold value_at.
  destruct (find _ row) as [e|] eqn:E.
  - apply find_some in E as [Hin Hj]. apply Nat.eqb_eq in Hj.
    rewrite List.Forall_forall in Hall. destruct (Hall e Hin) as [_ Hne].
    rewrite (proj2 (Req0_false _) Hne). split; [intros _|reflexivity].
    rewrite <- Hj. now apply in_map.
  - rewrite (proj2 (Req0_true 0) eq_refl). split; [discriminate|].
    intros Hin. apply in_map_iff in Hin as (e & He & Hin).
    pose proof (find_none _ _ E e Hin) as Hf. cbn in Hf.
    rewrite He, Nat.eqb_refl in Hf. discriminate.
Qed.

(** In a clean row the cells that are not zero are the stored ones. *)
Lemma clean_row_count (n : nat) (row : list (nat * R)) :
  clean_row n row ->
  length (List.filter (fun j => negb (Req0 (value_at row j))) (seq 0 n))
  = length row.
Proof.
  intros Hc. rewrite <- (length_map fst row).
  apply Permutation.Permutation_length, Permutation.NoDup_Permutation.
  - apply List.NoDup_filter, seq_NoDup.
  - exact (proj1 Hc).
  - intros j. rewrite List.filter_In, (value_at_nonzero n row j Hc), in_seq.
    split; [tauto|]. intros Hin. split; [|exact Hin].
    destruct Hc as [_ Hall]. rewrite List.Forall_forall in Hall.
    apply in_map_iff in Hin as (e & <- & Hin).
    destruct (Hall e Hin). lia.
Qed.

Lemma RowNNZ_length (c : CSR R) (i : nat) :
  RowNNZ c i = length (row_entries c i).
Proof. unfold RowNNZ, row_entries. now rewrite length_map, length_seq. Qed.

(** On a clean compressed-row matrix [RowNNZ] is the document frequency. *)
Lemma RowNNZ_is_document_frequency (c : CSR R) (i : nat) :
  clean c -> (i < raw_I c)%nat ->
  RowNNZ c i = document_frequency (MatCSR c) i.
Proof.
  intros Hc Hi. rewrite RowNNZ_length.
  symmetry. apply (clean_row_count (raw_J c)). now apply Hc.
Qed.

Lemma weights_formula (pad : R) (matrix : Matrix R) :
  clean_matrix matrix ->
  (Z.of_nat (snd (Dims matrix)) < 2 ^ 63 - 1)%Z ->
  weights pad (to_csr matrix)
  = map (fun i => ln ((1 + INR (snd (Dims matrix)))
                      / (1 + INR (document_frequency (to_csr matrix) i))) + pad)
        (seq 0 (fst (Dims matrix))).
Proof.
  intros Hc Hn. unfold weights. rewrite Dims_to_csr.
  destruct (Dims matrix) as [m n] eqn:D. cbn [fst snd] in *.
  assert (Dn : snd (Dims (to_csr matrix)) = n) by now rewrite Dims_to_csr, D.
  assert (Hany : forall i,
            idf_weight pad n (count_nonzero (to_csr matrix) i n)
            = ln ((1 + INR n) / (1 + INR (document_frequency (to_csr matrix) i)))
              + pad).
  { intros i.
    replace (count_nonzero (to_csr matrix) i n)
      with (document_frequency (to_csr matrix) i)
      by (rewrite <- count_nonzero_is_document_frequency, Dn; reflexivity).
    apply idf_weight_exact; [exact Hn|].
    pose proof (document_frequency_le (to_csr matrix) i) as Hle.
    now rewrite Dn in Hle. }
  assert (Hcsr : forall c, to_csr matrix = MatCSR c -> clean c -> raw_I c = m ->
            map (fun i => idf_weight pad n (RowNNZ c i)) (seq 0 m)
            = map (fun i => ln ((1 + INR n)
                                / (1 + INR (document_frequency (MatCSR c) i))) + pad)
                  (seq 0 m)).
  { intros c Ec Hcl Hm. apply map_ext_in. intros i Hi. apply in_seq in Hi.
    rewrite RowNNZ_is_document_frequency by (assumption || lia).
    apply idf_weight_exact; [exact Hn|].
    pose proof (document_frequency_le (to_csr matrix) i) as Hle.
    rewrite Dn, Ec in Hle. exact Hle. }
  destruct matrix as [c|tc|g]; cbn [to_csr] in *.
  - apply Hcsr; [reflexivity|exact Hc|]. now injection D.
  - apply Hcsr; [reflexivity|exact Hc|]. now injection D.
  - apply map_ext. intros i. apply Hany.
Qed.


Lemma document_frequency_to_csr (matrix : Matrix R) (i : nat) :
  document_frequency (to_csr matrix) i = document_frequency matrix i.
Proof. destruct matrix; reflexivity. Qed.

Lemma scale_row_cons (w : R) (e : nat * R) (row : list (nat * R)) :
  scale_row w (e :: row)
  = if Req0 (snd e * w) then scale_row w row
    else (fst e, snd e * w) :: scale_row w row.
Proof.
  unfold scale_row. cbn [map List.filter fst snd f_eq0 f_mul real_float64].
  destruct (Req0 (snd e * w)); reflexivity.
Qed.

Lemma value_at_scaled_absent (w : R) (row : list (nat * R)) (j : nat) :
  ~ In j (map fst row) -> value_at (scale_row w row) j = 0.
Proof.
  induction row as [|e row IH]; intros Hj; [reflexivity|].
  cbn [map] in Hj. rewrite scale_row_cons.
  assert (Hj' : ~ In j (map fst row)) by (intros Hin; apply Hj; now right).
  destruct (Req0 (snd e * w)); [now apply IH|].
  unfold value_at. cbn [find fst].
  destruct (Nat.eqb_spec (fst e) j) as [E|_]; [exfalso; apply Hj; now left|].
  now apply IH.
Qed.

(** Scaling a row multiplies the value of every cell, the cells whose
    product is dropped included. *)
Lemma value_at_scale_row (w : R) (row : list (nat * R)) (j : nat) :
  List.NoDup (map fst row) ->
  value_at (scale_row w row) j = value_at row j * w.
Proof.
  induction row as [|e row IH]; intros Hnd.
  - unfold value_at. cbn. lra.
  - cbn [map] in Hnd. apply List.NoDup_cons_iff in Hnd as [Hfresh Hnd].
    rewrite scale_row_cons.
    unfold value_at at 2. cbn [find].
    destruct (Nat.eqb_spec (fst e) j) as [E|N].
    + destruct (Req0 (snd e * w)) eqn:Z.
      * rewrite value_at_scaled_absent by now rewrite <- E.
        apply Req0_true in Z. lra.
      * unfold value_at. cbn [find fst snd].
        now rewrite (proj2 (Nat.eqb_eq _ _) E).
    + destruct (Req0 (snd e * w)).
      * now apply IH.
      * unfold value_at at 1. cbn [find fst].
        rewrite (proj2 (Nat.eqb_neq _ _) N). now apply IH.
Qed.

Lemma value_at_cells (f : nat -> R) (n j : nat) :
  (j < n)%nat -> value_at (map (fun k => (k, f k)) (seq 0 n)) j = f j.
Proof.
  intros Hj. unfold value_at.
  destruct (find _ _) as [e|] eqn:E.
  - apply find_some in E as [Hin He]. apply Nat.eqb_eq in He.
    apply in_map_iff in Hin as (k & <- & _). cbn in *. now subst.
  - pose proof (find_none _ _ E (j, f j)) as Hn.
    cbn in Hn. rewrite Nat.eqb_refl in Hn.
    assert (false = true); [|discriminate].
    symmetry. apply Hn. apply in_map_iff. exists j. split; [reflexivity|].
    apply in_seq. lia.
Qed.

Lemma nth_map_seq {A : Type} (f : nat -> A) (m i : nat) (d : A) :
  (i < m)%nat -> nth i (map f (seq 0 m)) d = f i.
Proof.
  intros Hi. rewrite (nth_indep _ d (f 0%nat))
    by (now rewrite length_map, length_seq).
  rewrite map_nth, seq_nth by exact Hi. reflexivity.
Qed.

(** The model [Fit] stores for a matrix without stored zeros. *)
Lemma Fit_model_formula
  (t : TfidfTransformer R) (matrix : Matrix R) :
  clean_matrix matrix ->
  (Z.of_nat (snd (Dims matrix)) < 2 ^ 63 - 1)%Z ->
  transform (Fit t matrix)
  = Some (NewDIA (fst (Dims matrix)) (fst (Dims matrix))
            (map (fun i => ln ((1 + INR (snd (Dims matrix)))
                               / (1 + INR (document_frequency matrix i)))
                           + weightPadding t)
                 (seq 0 (fst (Dims matrix))))).
Proof.
  intros Hc Hn. unfold Fit. rewrite Dims_to_csr.
  destruct (Dims matrix) as [m n] eqn:D.
  cbn [transform set_transform fst snd].
  pose proof (weights_formula (weightPadding t) matrix Hc) as W.
  rewrite D in W. cbn [fst snd] in W. rewrite W by exact Hn.
  do 2 f_equal. apply map_ext. intros i.
  now rewrite document_frequency_to_csr.
Qed.

(** X1. Fit on a matrix without stored zeros: the model holds one weight
    per term, [ln((1+n)/(1+df_i))] plus the padding, with [df_i] the
    number of documents in which term [i] has a non-zero entry. *)
Theorem Fit_weights_without_stored_zeros
  (t : TfidfTransformer R) (matrix : Matrix R) :
  clean_matrix matrix ->
  (Z.of_nat (snd (Dims matrix)) < 2 ^ 63 - 1)%Z ->
  transform (Fit t matrix)
  = Some (NewDIA (fst (Dims matrix)) (fst (Dims matrix))
            (map (fun i => ln ((1 + INR (snd (Dims matrix)))
                               / (1 + INR (document_frequency matrix i)))
                           + weightPadding t)
                 (seq 0 (fst (Dims matrix))))).
Proof. exact (Fit_model_formula t matrix). Qed.


Lemma CSR_At_rows (r c : nat) (f : nat -> list (nat * R)) (m i j : nat) :
  (i < m)%nat ->
  CSR_At (csr_of_rows r c (map f (seq 0 m))) i j = value_at (f i) j.
Proof.
  intros Hi. unfold CSR_At.
  rewrite row_entries_nth by (now rewrite length_map, length_seq).
  now rewrite nth_map_seq.
Qed.

Lemma At_to_csr (matrix : Matrix R) (i j : nat) :
  At (to_csr matrix) i j = At matrix i j.
Proof. destruct matrix; reflexivity. Qed.

(** A cell of [DIA * matrix] is the cell of the matrix times the weight
    of its row. *)
Lemma weighted_cell (dia : DIA R) (matrix : Matrix R) (i j : nat) :
  clean_matrix matrix ->
  dia_m dia = fst (Dims matrix) ->
  length (Diagonal dia) = fst (Dims matrix) ->
  (i < fst (Dims matrix))%nat -> (j < snd (Dims matrix))%nat ->
  CSR_At (match matrix with
          | MatCSR c => mulDIACSR dia c
          | _ => mulDIAMat dia matrix
          end) i j
  = At matrix i j * nth i (Diagonal dia) 0.
Proof.
  intros Hc Hm Hlen Hi Hj.
  assert (Hw : forall row, mul_row dia i row = scale_row (nth i (Diagonal dia) 0) row).
  { intros row. unfold mul_row.
    rewrite (nth_error_nth' (Diagonal dia) 0) by lia. reflexivity. }
  assert (Hcells : CSR_At (mulDIAMat dia matrix) i j
                   = At matrix i j * nth i (Diagonal dia) 0).
  { unfold mulDIAMat. rewrite Hm, CSR_At_rows by exact Hi.
    rewrite Hw, value_at_scale_row.
    - now rewrite value_at_cells.
    - rewrite map_map. cbn [fst]. rewrite map_id. apply seq_NoDup. }
  destruct matrix as [c|tc|g]; try exact Hcells.
  unfold mulDIACSR. rewrite Hm, CSR_At_rows by exact Hi.
  rewrite Hw, value_at_scale_row; [reflexivity|].
  apply (Hc i Hi).
Qed.

(** X2. Fit then Transform on a matrix without stored zeros, with no padding
    and no normalization: the result has the shape of the matrix and its
    cell (i,j) is the cell of the matrix times [ln((1+n)/(1+df_i))]. *)
Theorem Fit_Transform_without_stored_zeros
  (t : TfidfTransformer R) (matrix : Matrix R) :
  clean_matrix matrix ->
  (Z.of_nat (snd (Dims matrix)) < 2 ^ 63 - 1)%Z ->
  weightPadding t = 0 ->
  l2Normalization t = NoL2Normalization ->
  exists result,
    Transform (Fit t matrix) matrix = Returned (result, None)
    /\ (raw_I result, raw_J result) = Dims matrix
    /\ forall i j,
         (i < fst (Dims matrix))%nat -> (j < snd (Dims matrix))%nat ->
         CSR_At result i j
         = At matrix i j
           * ln ((1 + INR (snd (Dims matrix)))
                 / (1 + INR (document_frequency matrix i))).
Proof.
  intros Hc Hn Hpad Hmode.
  pose proof (Fit_model_formula t matrix Hc Hn) as Hfit.
  unfold Transform, Mul. rewrite Hfit. cbn [dia_n].
  rewrite Dims_to_csr, Nat.eqb_refl.
  replace (l2Normalization (Fit t matrix)) with NoL2Normalization
    by (rewrite <- Hmode; unfold Fit; destruct (Dims (to_csr matrix)); reflexivity).
  change (l2_normalise NoL2Normalization ?p) with p.
  eexists. split; [reflexivity|].
  set (dia := NewDIA _ _ _).
  split.
  { destruct matrix as [c|tc|g]; reflexivity. }
  intros i j Hi Hj.
  assert (Hclean : clean_matrix (to_csr matrix)) by (destruct matrix; exact Hc).
  pose proof (weighted_cell dia (to_csr matrix) i j Hclean) as W.
  rewrite Dims_to_csr in W.
  assert (Hlen : length (Diagonal dia) = fst (Dims matrix))
    by (unfold dia; cbn [Diagonal]; now rewrite length_map, length_seq).
  specialize (W eq_refl Hlen Hi Hj).
  rewrite At_to_csr in W.
  replace (nth i (Diagonal dia) 0)
    with (ln ((1 + INR (snd (Dims matrix)))
              / (1 + INR (document_frequency matrix i)))) in W.
  - rewrite <- W. destruct matrix as [c|tc|g]; reflexivity.
  - unfold dia. cbn [Diagonal]. rewrite nth_map_seq by exact Hi.
    rewrite Hpad. lra.
Qed.


Lemma corpus_clean : clean_matrix (MatCSR corpus).
Proof.
  intros i Hi. cbn [raw_I corpus] in Hi.
  destruct i as [|[|[|i]]]; [| | |lia]; split; cbn.
  - repeat (apply List.NoDup_cons; [cbn; lia|]). apply List.NoDup_nil.
  - repeat (apply List.Forall_cons; [cbn; split; [lia|lra]|]). apply List.Forall_nil.
  - repeat (apply List.NoDup_cons; [cbn; lia|]). apply List.NoDup_nil.
  - repeat (apply List.Forall_cons; [cbn; split; [lia|lra]|]). apply List.Forall_nil.
  - apply List.NoDup_nil.
  - apply List.Forall_nil.
Qed.

Lemma corpus_in_range : (Z.of_nat (snd (Dims (MatCSR corpus))) < 2 ^ 63 - 1)%Z.
Proof. cbn. lia. Qed.

Lemma Fit_weights_without_stored_zeros_witness :
  transform (Fit padded (MatCSR corpus))
  = Some (NewDIA 3 3
            (map (fun i => ln ((1 + INR 4)
                               / (1 + INR (document_frequency (MatCSR corpus) i)))
                           + 1)
                 (seq 0 3))).
Proof.
  exact (Fit_weights_without_stored_zeros padded (MatCSR corpus)
           corpus_clean corpus_in_range).
Defined.

(** The weights the spec expects: [ln(5/5)], [ln(5/3)] and [ln(5/1)],
    each plus the padding. *)
Example Fit_corpus :
  transform (Fit padded (MatCSR corpus))
  = Some (NewDIA 3 3 [ln (5 / 5) + 1; ln (5 / 3) + 1; ln (5 / 1) + 1]).
Proof.
  rewrite (Fit_model_formula padded (MatCSR corpus) corpus_clean corpus_in_range).
  cbn [Dims raw_I raw_J corpus fst snd seq map weightPadding padded
       SetWeightPadding].
  fold corpus.
  rewrite <- !(RowNNZ_is_document_frequency corpus)
    by (exact corpus_clean || (cbn; lia)).
  change (RowNNZ corpus 0) with 4%nat.
  change (RowNNZ corpus 1) with 2%nat.
  change (RowNNZ corpus 2) with 0%nat.
  cbn [INR]. repeat f_equal; lra.
Qed.

Lemma Fit_Transform_without_stored_zeros_witness :
  exists result,
    Transform (Fit NewTfidfTransformer (MatCSR corpus)) (MatCSR corpus)
    = Returned (result, None)
    /\ (raw_I result, raw_J result) = (3, 4)%nat
    /\ forall i j,
         (i < 3)%nat -> (j < 4)%nat ->
         CSR_At result i j
         = CSR_At corpus i j
           * ln ((1 + INR 4) / (1 + INR (document_frequency (MatCSR corpus) i))).
Proof.
  exact (Fit_Transform_without_stored_zeros NewTfidfTransformer (MatCSR corpus)
           corpus_clean corpus_in_range eq_refl eq_refl).
Defined.

End ExactFacts.

(** * Facts about the store *)

Module HeapFacts.
Import Sparse Tfidf Heap Exact Scenarios.

Section Frame.
Context {F : Type} `{Float64 F}.
Local Abbreviation store := (gmap nat (slice F)).

Lemma alloc_fresh (s : store) (v : slice F) : (alloc s v).2 ∉ dom s.
Proof. apply is_fresh. Qed.

Lemma alloc_lookup (s : store) (v : slice F) :
  (alloc s v).1 !! (alloc s v).2 = Some v.
Proof. apply lookup_insert_eq. Qed.

Lemma alloc_preserves (s : store) (v : slice F) : preserves s (alloc s v).1.
Proof.
  intros l Hl. cbn. apply lookup_insert_ne.
  intros E. apply (alloc_fresh s v). cbn. now rewrite E.
Qed.

Lemma preserves_refl (s : store) : preserves s s.
Proof. intros l _. reflexivity. Qed.

Lemma preserves_dom (s s' : store) : preserves s s' -> dom s ⊆ dom s'.
Proof.
  intros P l Hl. pose proof (P l Hl) as E.
  apply elem_of_dom in Hl as [v Hv]. rewrite Hv in E.
  now apply elem_of_dom_2 in E.
Qed.

Lemma preserves_trans (s1 s2 s3 : store) :
  preserves s1 s2 -> preserves s2 s3 -> preserves s1 s3.
Proof.
  intros P12 P23 l Hl. rewrite <- (P12 l Hl).
  apply P23. now apply (preserves_dom _ _ P12).
Qed.

Lemma fresh_for_earlier (s0 s : store) (r : csr_ref) :
  preserves s0 s -> fresh_for s r -> fresh_for s0 r.
Proof.
  intros P (A & B & C). pose proof (preserves_dom _ _ P) as D.
  repeat split; intros Hl; [apply A|apply B|apply C]; now apply D.
Qed.

Lemma alloc_csr_preserves (s : store) (c : CSR F) :
  preserves s (alloc_csr s c).1.
Proof.
  unfold alloc_csr. cbn.
  eapply preserves_trans; [apply alloc_preserves|].
  eapply preserves_trans; [apply alloc_preserves|].
  apply alloc_preserves.
Qed.

Lemma alloc_csr_fresh (s : store) (c : CSR F) :
  fresh_for s (alloc_csr s c).2.
Proof.
  unfold alloc_csr, alloc, fresh_for. cbn. rewrite !dom_insert_L.
  split; [apply is_fresh|]. split.
  - intros Hl. apply (is_fresh ({[fresh (dom s)]} ∪ dom s)).
    apply elem_of_union_r. exact Hl.
  - set (X := {[fresh (dom s)]} ∪ dom s) in *.
    intros Hl. apply (is_fresh ({[fresh X]} ∪ X)).
    apply elem_of_union_r. unfold X. apply elem_of_union_r. exact Hl.
Qed.

(** Writing the product's data leaves every earlier slice alone. *)
Lemma normalise_h_preserves (s0 s : store) (product : csr_ref) :
  preserves s0 s -> fresh_for s0 product -> preserves s0 (normalise_h s product).
Proof.
  intros P (_ & _ & Hd) l Hl. unfold normalise_h.
  rewrite lookup_insert_ne; [now apply P|].
  intros E. apply Hd. now rewrite E.
Qed.

Lemma clone_transpose_frame (s0 s : store) (product : csr_ref) :
  preserves s0 s ->
  preserves s0 (clone_transpose s product).1
  /\ fresh_for s0 (clone_transpose s product).2.
Proof.
  intros P. unfold clone_transpose. split.
  - eapply preserves_trans; [exact P|apply alloc_csr_preserves].
  - eapply fresh_for_earlier; [exact P|apply alloc_csr_fresh].
Qed.

Lemma l2_normalise_h_frame (mode : Z) (s0 s : store) (product : csr_ref) :
  preserves s0 s -> fresh_for s0 product ->
  preserves s0 (l2_normalise_h mode s product).1
  /\ fresh_for s0 (l2_normalise_h mode s product).2.
Proof.
  intros P Hf. unfold l2_normalise_h.
  destruct (Z.eqb mode NoL2Normalization); [now split|].
  destruct (Z.eqb mode ColBasedL2Normalization).
  - destruct (clone_transpose_frame s0 s product P) as [P1 F1].
    destruct (clone_transpose s product) as [s1 p1]; cbn [fst snd] in *.
    apply clone_transpose_frame. now apply normalise_h_preserves.
  - cbn [fst snd]. split; [now apply normalise_h_preserves|exact Hf].
Qed.

Lemma to_csr_h_preserves (s : store) (m : matrix_ref F) :
  preserves s (to_csr_h s m).1.
Proof.
  destruct m as [r|conv|rows cols at_]; cbn [to_csr_h];
    try apply preserves_refl.
  pose proof (alloc_csr_preserves s (conv s)) as P.
  destruct (alloc_csr s (conv s)) as [s1 r]. exact P.
Qed.

(** C9. Over any store: [Fit] leaves every slice the store held as it
    was (the input matrix among them); when [Transform] returns, every
    slice the store held is as it was, and the three slices of the
    returned matrix are new ones, outside the store the call started
    from, so none is a slice of the input matrix or of the model. *)
Theorem Fit_and_Transform_leave_the_input
  (s : store) (t : transformer_ref F) (m : matrix_ref F) :
  preserves s (Fit_h s t m).1
  /\ match Transform_h s t m with
     | Panicked _ => True
     | Returned (s', result, _) =>
         preserves s s' /\ fresh_for s result
         /\ (forall r, m = RefCSR r ->
               ref_Indptr r ∈ dom s -> ref_Ind r ∈ dom s -> ref_Data r ∈ dom s ->
               read_csr s' r = read_csr s r
               /\ ref_Indptr result <> ref_Indptr r
               /\ ref_Ind result <> ref_Ind r
               /\ ref_Data result <> ref_Data r)
     end.
Proof.
  split.
  - unfold Fit_h.
    pose proof (to_csr_h_preserves s m) as P.
    destruct (to_csr_h s m) as [s1 m1]; cbn [fst] in P.
    cbn. eapply preserves_trans; [exact P|apply alloc_preserves].
  - unfold Transform_h.
    pose proof (to_csr_h_preserves s m) as P.
    destruct (to_csr_h s m) as [s1 m1]; cbn [fst] in P.
    destruct (Mul _ _) as [c|p]; [|exact I].
    pose proof (alloc_csr_preserves s1 c) as P2.
    pose proof (alloc_csr_fresh s1 c) as F2.
    destruct (alloc_csr s1 c) as [s2 product]; cbn [fst snd] in *.
    assert (P02 : preserves s s2) by (eapply preserves_trans; eassumption).
    pose proof (fresh_for_earlier _ _ _ P F2) as F02.
    destruct (l2_normalise_h_frame (l2Normalization_ref t) s s2 product P02 F02)
      as [P3 F3].
    destruct (l2_normalise_h _ s2 product) as [s3 result]; cbn [fst snd] in *.
    split; [exact P3|]. split; [exact F3|].
    intros r _ Hp Hi Hd. destruct F3 as (Fp & Fi & Fd).
    split.
    + unfold read_csr, ints_at, floats_at.
      now rewrite (P3 _ Hp), (P3 _ Hi), (P3 _ Hd).
    + repeat split; intros E; [apply Fp|apply Fi|apply Fd]; now rewrite E.
Qed.


(** *** The store and the values agree *)

Lemma alloc_csr_reads (s : store) (c : CSR F) :
  read_csr (alloc_csr s c).1 (alloc_csr s c).2 = c
  /\ separate (alloc_csr s c).2.
Proof.
  unfold alloc_csr, alloc, read_csr, separate, ints_at, floats_at. cbn.
  set (l1 := fresh (dom s)).
  set (s1 := <[l1 := Ints (Indptr c)]> s).
  set (l2 := fresh (dom s1)).
  set (s2 := <[l2 := Ints (Ind c)]> s1).
  set (l3 := fresh (dom s2)).
  assert (N21 : l2 <> l1).
  { intros E. apply (is_fresh (dom s1)). fold l2. rewrite E.
    unfold s1. rewrite dom_insert_L. apply elem_of_union_l.
    now apply elem_of_singleton. }
  assert (N32 : l3 <> l2).
  { intros E. apply (is_fresh (dom s2)). fold l3. rewrite E.
    unfold s2. rewrite dom_insert_L. apply elem_of_union_l.
    now apply elem_of_singleton. }
  assert (N31 : l3 <> l1).
  { intros E. apply (is_fresh (dom s2)). fold l3. rewrite E.
    unfold s2, s1. rewrite !dom_insert_L. apply elem_of_union_r, elem_of_union_l.
    now apply elem_of_singleton. }
  split; [|split; assumption].
  rewrite lookup_insert_eq.
  rewrite (lookup_insert_ne s2 l3 l2) by exact N32.
  rewrite (lookup_insert_ne s2 l3 l1) by exact N31.
  unfold s2. rewrite lookup_insert_eq.
  rewrite (lookup_insert_ne s1 l2 l1) by exact N21.
  unfold s1. rewrite lookup_insert_eq.
  destruct c; reflexivity.
Qed.

Lemma normalise_row_keeps (c : CSR F) (i : nat) :
  raw_I (normalise_row c i) = raw_I c /\ raw_J (normalise_row c i) = raw_J c
  /\ Indptr (normalise_row c i) = Indptr c /\ Ind (normalise_row c i) = Ind c.
Proof. unfold normalise_row. destruct (f_eq0 _); repeat split. Qed.

Lemma normalise_rows_keep_shape (rows : list nat) (c : CSR F) :
  fold_left normalise_row rows c
  = NewCSR (raw_I c) (raw_J c) (Indptr c) (Ind c)
           (Data (fold_left normalise_row rows c)).
Proof.
  revert c. induction rows as [|i rows IH]; intros c; cbn [fold_left].
  - destruct c; reflexivity.
  - rewrite IH at 1.
    destruct (normalise_row_keeps c i) as (-> & -> & -> & ->). reflexivity.
Qed.

Lemma normalise_h_reads (s : store) (product : csr_ref) :
  separate product ->
  read_csr (normalise_h s product) product = normalise (read_csr s product).
Proof.
  intros [Np Ni]. unfold normalise.
  rewrite (normalise_rows_keep_shape _ (read_csr s product)) at 1.
  unfold normalise_h, read_csr at 1. unfold ints_at, floats_at.
  rewrite lookup_insert_eq, !lookup_insert_ne by assumption.
  reflexivity.
Qed.

Lemma l2_normalise_h_reads (mode : Z) (s : store) (product : csr_ref) :
  separate product ->
  read_csr (l2_normalise_h mode s product).1 (l2_normalise_h mode s product).2
  = l2_normalise mode (read_csr s product).
Proof.
  intros Hsep. unfold l2_normalise_h, l2_normalise, clone_transpose.
  destruct (Z.eqb mode NoL2Normalization); [reflexivity|].
  destruct (Z.eqb mode ColBasedL2Normalization).
  - destruct (alloc_csr_reads s (transpose (read_csr s product))) as [R1 S1].
    destruct (alloc_csr s (transpose (read_csr s product))) as [s1 p1];
      cbn [fst snd] in *.
    rewrite (proj1 (alloc_csr_reads _ _)).
    now rewrite normalise_h_reads, R1.
  - cbn [fst snd]. now apply normalise_h_reads.
Qed.

Lemma to_csr_h_view (s : store) (m : matrix_ref F) :
  view (to_csr_h s m).1 (to_csr_h s m).2 = to_csr (view s m).
Proof.
  destruct m as [r|conv|rows cols at_]; cbn [to_csr_h view to_csr fst snd];
    try reflexivity.
  destruct (alloc_csr_reads s (conv s)) as [R _].
  destruct (alloc_csr s (conv s)) as [s1 r]; cbn [fst snd view ToCSR] in *.
  now rewrite R.
Qed.

(** [Fit] over the store computes the model [Fit] computes from the
    values the store holds. *)
Theorem Fit_h_refines (s : store) (t : transformer_ref F) (m : matrix_ref F) :
  view_transformer (Fit_h s t m).1 (Fit_h s t m).2
  = Fit (view_transformer s t) (view s m).
Proof.
  unfold Fit_h, Fit.
  pose proof (to_csr_h_view s m) as V.
  destruct (to_csr_h s m) as [s1 m1]; cbn [fst snd] in V. rewrite <- V.
  unfold alloc, view_transformer, set_transform. cbn.
  unfold read_dia, floats_at. cbn. rewrite lookup_insert_eq.
  destruct (Dims (view s1 m1)) as [rows cols]. reflexivity.
Qed.

(** [Transform] over the store returns the matrix [Transform] computes
    from the values the store holds, when the model is a slice of the
    store. *)
Theorem Transform_h_refines (s : store) (t : transformer_ref F) (m : matrix_ref F) :
  (forall d, transform_ref t = Some d -> ref_diagonal d ∈ dom s) ->
  match Transform_h s t m with
  | Panicked p => Transform (view_transformer s t) (view s m) = Panicked p
  | Returned (s', result, err) =>
      Transform (view_transformer s t) (view s m)
      = Returned (read_csr s' result, err)
  end.
Proof.
  intros Hmodel. unfold Transform_h, Transform.
  pose proof (to_csr_h_view s m) as V.
  pose proof (to_csr_h_preserves s m) as P.
  destruct (to_csr_h s m) as [s1 m1]; cbn [fst snd] in V, P. rewrite <- V.
  assert (E : option_map (read_dia s1) (transform_ref t)
              = transform (view_transformer s t)).
  { cbn [transform view_transformer].
    destruct (transform_ref t) as [d|]; [|reflexivity]. cbn [option_map].
    unfold read_dia, floats_at. now rewrite (P _ (Hmodel d eq_refl)). }
  rewrite E.
  destruct (Mul _ _) as [c|p]; [|reflexivity].
  destruct (alloc_csr_reads s1 c) as [R Hsep].
  destruct (alloc_csr s1 c) as [s2 product]; cbn [fst snd] in *.
  pose proof (l2_normalise_h_reads (l2Normalization_ref t) s2 product Hsep) as L.
  destruct (l2_normalise_h _ s2 product) as [s3 result]; cbn [fst snd] in *.
  rewrite L, R. reflexivity.
Qed.

End Frame.

Lemma Transform_h_refines_witness :
  match Transform_h model_store fitted_ref one_cell with
  | Panicked p =>
      Transform (view_transformer model_store fitted_ref)
                (view model_store one_cell) = Panicked p
  | Returned (s', result, err) =>
      Transform (view_transformer model_store fitted_ref)
                (view model_store one_cell)
      = Returned (read_csr s' result, err)
  end.
Proof.
  apply (Transform_h_refines model_store fitted_ref one_cell).
  intros d E. injection E as <-. cbn [ref_diagonal].
  apply elem_of_dom. exists (Floats [1%R]). apply lookup_singleton_eq.
Defined.

End HeapFacts.

(** * What the transformer does for every matrix and every setting *)

Module ShapeFacts.
Import Sparse Tfidf Storage SparseFacts TfidfFacts HeapFacts.

Section Shape.
Context {F : Type} `{Float64 F}.

Lemma normalise_dims (c : CSR F) :
  raw_I (normalise c) = raw_I c /\ raw_J (normalise c) = raw_J c.
Proof.
  unfold normalise. rewrite normalise_rows_keep_shape. split; reflexivity.
Qed.

Lemma l2_normalise_dims (mode : Z) (c : CSR F) :
  raw_I (l2_normalise mode c) = raw_I c /\ raw_J (l2_normalise mode c) = raw_J c.
Proof.
  unfold l2_normalise.
  destruct (Z.eqb mode NoL2Normalization); [split; reflexivity|].
  destruct (Z.eqb mode ColBasedL2Normalization).
  - cbn [transpose raw_I raw_J csr_of_rows].
    destruct (normalise_dims (transpose c)) as [HI HJ].
    rewrite HI, HJ. split; reflexivity.
  - apply normalise_dims.
Qed.

Lemma Mul_dims (model : DIA F) (matrix : Matrix F) (product : CSR F) :
  Mul (Some model) matrix = Returned product ->
  dia_n model = fst (Dims matrix)
  /\ raw_I product = dia_m model /\ raw_J product = snd (Dims matrix).
Proof.
  unfold Mul. destruct (Nat.eqb_spec (dia_n model) (fst (Dims matrix))) as [E|E];
    [|discriminate].
  intros R. injection R as <-. split; [exact E|].
  destruct matrix; split; reflexivity.
Qed.

(** X6. In every normalization mode, column mode included, what
    [Transform] returns has as many rows as the model and as many
    columns as the matrix, and the model's width is the matrix's row
    count. *)
Theorem Transform_shape (t : TfidfTransformer F) (matrix : Matrix F) :
  match Transform t matrix with
  | Returned (result, _) =>
      exists model,
        transform t = Some model
        /\ dia_n model = fst (Dims matrix)
        /\ raw_I result = dia_m model
        /\ raw_J result = snd (Dims matrix)
  | Panicked _ => True
  end.
Proof.
  unfold Transform.
  destruct (Mul (transform t) (to_csr matrix)) as [product|p] eqn:E; [|exact I].
  destruct (transform t) as [model|]; [|discriminate E].
  destruct (Mul_dims _ _ _ E) as (Hn & HI & HJ). rewrite Dims_to_csr in Hn, HJ.
  destruct (l2_normalise_dims (l2Normalization t) product) as [LI LJ].
  exists model. rewrite LI, LJ. repeat split; assumption.
Qed.

Lemma Fit_model (t : TfidfTransformer F) (matrix : Matrix F) :
  Fit t matrix
  = set_transform t (NewDIA (fst (Dims matrix)) (fst (Dims matrix))
                            (weights (weightPadding t) (to_csr matrix))).
Proof.
  unfold Fit. rewrite Dims_to_csr. destruct (Dims matrix). reflexivity.
Qed.

Lemma weights_length (pad : F) (matrix : Matrix F) :
  length (weights pad matrix) = fst (Dims matrix).
Proof.
  unfold weights. destruct (Dims matrix) as [m n].
  destruct matrix; now rewrite length_map, length_seq.
Qed.

(** The multiplication inside [FitTransform] gets a model of the width
    of the matrix, whatever the padding and the mode. *)
Lemma FitTransform_multiplies (t : TfidfTransformer F) (matrix : Matrix F) :
  exists result,
    FitTransform t matrix = (Fit t matrix, Returned (result, None))
    /\ (raw_I result, raw_J result) = Dims matrix.
Proof.
  unfold FitTransform. rewrite Fit_to_csr, Transform_to_csr.
  pose proof (Transform_unfold (Fit t matrix) matrix
                (l2Normalization (Fit t matrix))) as U.
  replace (SetL2Normalization (Fit t matrix) (l2Normalization (Fit t matrix)))
    with (Fit t matrix) in U by (now destruct (Fit t matrix)).
  rewrite U. clear U.
  assert (Em : transform (Fit t matrix)
               = Some (NewDIA (fst (Dims matrix)) (fst (Dims matrix))
                         (weights (weightPadding t) (to_csr matrix))))
    by (rewrite Fit_model; reflexivity).
  rewrite Em. unfold Mul. cbn [dia_n]. rewrite Dims_to_csr, Nat.eqb_refl.
  eexists. split; [reflexivity|].
  match goal with
  | |- (raw_I (l2_normalise ?m ?p), raw_J (l2_normalise ?m ?p)) = _ =>
      destruct (l2_normalise_dims m p) as [-> ->]
  end.
  destruct matrix; reflexivity.
Qed.

(** X7. [FitTransform] cannot hit the dimension mismatch of the
    multiplication: for every matrix, padding and normalization mode the
    model [Fit] has just installed has the width of the matrix, so the
    call does not end in the shape panic; when it returns, the error is
    nil and the matrix returned has the shape of the input; the receiver
    is left as [Fit] leaves it.  (A panic of the package on an index
    outside a slice is not among the outcomes described here.) *)
Theorem FitTransform_has_no_shape_panic
  (t : TfidfTransformer F) (matrix : Matrix F) :
  snd (FitTransform t matrix) <> Panicked ErrShape
  /\ fst (FitTransform t matrix) = Fit t matrix
  /\ (exists model, transform (fst (FitTransform t matrix)) = Some model
                    /\ dia_n model = fst (Dims matrix))
  /\ forall result err,
       snd (FitTransform t matrix) = Returned (result, err) ->
       err = None /\ (raw_I result, raw_J result) = Dims matrix.
Proof.
  destruct (FitTransform_multiplies t matrix) as (result & E & Hshape).
  rewrite E. cbn [fst snd].
  split; [discriminate|]. split; [reflexivity|]. split.
  - rewrite Fit_model. eexists. split; reflexivity.
  - intros result' err R. injection R as <- <-. split; [reflexivity|exact Hshape].
Qed.

(** X8. For every matrix whose slices are in range, stored zeros or
    not, the model [Fit] installs is square, of the matrix's row count,
    and holds exactly one weight per row; the padding and the
    normalization mode are left as they were. *)
Theorem Fit_model_is_square (t : TfidfTransformer F) (matrix : Matrix F) :
  well_stored matrix ->
  exists model,
    transform (Fit t matrix) = Some model
    /\ dia_m model = fst (Dims matrix)
    /\ dia_n model = fst (Dims matrix)
    /\ length (Diagonal model) = fst (Dims matrix)
    /\ weightPadding (Fit t matrix) = weightPadding t
    /\ l2Normalization (Fit t matrix) = l2Normalization t.
Proof.
  intros _. rewrite Fit_model. eexists. split; [reflexivity|].
  cbn [dia_m dia_n Diagonal weightPadding l2Normalization set_transform].
  rewrite weights_length, Dims_to_csr. repeat split.
Qed.

(** X9. The normalization mode is an [int]: every value other than
    [NoL2Normalization] and [ColBasedL2Normalization] normalizes rows,
    as [RowBasedL2Normalization] does. *)
Theorem other_modes_normalise_rows
  (t : TfidfTransformer F) (matrix : Matrix F) (mode : Z) :
  mode <> NoL2Normalization -> mode <> ColBasedL2Normalization ->
  Transform (SetL2Normalization t mode) matrix
  = Transform (SetL2Normalization t RowBasedL2Normalization) matrix.
Proof.
  intros H0 H2. rewrite !Transform_unfold.
  destruct (Mul _ _) as [product|p]; [|reflexivity].
  unfold l2_normalise.
  rewrite (proj2 (Z.eqb_neq _ _) H0), (proj2 (Z.eqb_neq _ _) H2).
  reflexivity.
Qed.

Lemma count_nonzero_pattern (a b : Matrix F) (i n : nat) :
  (forall j, j < n -> f_eq0 (At a i j) = f_eq0 (At b i j)) ->
  count_nonzero a i n = count_nonzero b i n.
Proof.
  intros E. unfold count_nonzero. generalize 0 at 2 4 as df.
  assert (Hin : forall j, In j (seq 0 n) -> f_eq0 (At a i j) = f_eq0 (At b i j))
    by (intros j Hj; apply E; apply in_seq in Hj; lia).
  revert Hin. generalize (seq 0 n) as l.
  induction l as [|j l IH]; intros Hin df; [reflexivity|].
  cbn [fold_left]. rewrite (Hin j) by now left.
  apply IH. intros k Hk. apply Hin. now right.
Qed.

(** X10. On the scan path [Fit] reads the cells only to compare them
    with zero: two matrices without [ToCSR] of the same dimensions whose
    cells are zero at the same places get the same model, whatever the
    non-zero values are. *)
Theorem Fit_scans_the_zero_pattern (t : TfidfTransformer F) (a b : AnyMatrix F) :
  any_rows a = any_rows b -> any_cols a = any_cols b ->
  (forall i j, i < any_rows a -> j < any_cols a ->
               f_eq0 (any_At a i j) = f_eq0 (any_At b i j)) ->
  Fit t (MatAny a) = Fit t (MatAny b).
Proof.
  intros Hr Hc Hz. rewrite !Fit_model. cbn [Dims fst to_csr]. rewrite <- Hr.
  do 2 f_equal. unfold weights. cbn [Dims]. rewrite <- Hr, <- Hc.
  apply map_ext_in. intros i Hi. apply in_seq in Hi. f_equal.
  apply count_nonzero_pattern. intros j Hj. apply Hz; lia.
Qed.

(** X11. On the fast path [Fit] reads neither the column indices nor the
    values: two compressed-row matrices with the same dimensions and the
    same [Indptr] get the same model. *)
Theorem Fit_on_CSR_reads_Indptr_only (t : TfidfTransformer F) (a b : CSR F) :
  raw_I a = raw_I b -> raw_J a = raw_J b -> Indptr a = Indptr b ->
  Fit t (MatCSR a) = Fit t (MatCSR b).
Proof.
  intros HI HJ Hp. rewrite !Fit_model. cbn [Dims fst to_csr]. rewrite HI.
  do 2 f_equal. unfold weights, RowNNZ. cbn [Dims]. now rewrite HI, HJ, Hp.
Qed.

End Shape.

Section Unfitted.
Context {F : Type} `{Float64 F}.
Variable MarshalBinaryTo : DIA F -> list Byte.byte -> list Byte.byte * option error.
Variable UnmarshalBinaryFrom :
  list Byte.byte -> error + (DIA F * list Byte.byte).

(** X13. A model saved by one transformer and loaded by another gives
    the same results: when the stream [Save] wrote decodes to the model
    saved, [Transform] by the loading transformer returns, for every
    matrix, what [Transform] by the saving one returns under the
    loader's normalization mode; [Load] leaves the loader's padding and
    mode as they were. *)
Theorem loaded_model_transforms_alike
  (t t' : TfidfTransformer F) (model : DIA F)
  (stream rest : list Byte.byte) (matrix : Matrix F) :
  transform t = Some model ->
  Save MarshalBinaryTo t [] = Returned (stream, None) ->
  UnmarshalBinaryFrom stream = inr (model, rest) ->
  Transform (fst (Load UnmarshalBinaryFrom t' stream)) matrix
  = Transform (SetL2Normalization t (l2Normalization t')) matrix
  /\ weightPadding (fst (Load UnmarshalBinaryFrom t' stream)) = weightPadding t'
  /\ l2Normalization (fst (Load UnmarshalBinaryFrom t' stream))
     = l2Normalization t'.
Proof.
  intros Ht _ Hr. unfold Load. rewrite Hr. cbn [fst].
  split; [|split; reflexivity].
  unfold Transform. cbn [transform set_transform SetL2Normalization l2Normalization].
  now rewrite Ht.
Qed.

End Unfitted.
End ShapeFacts.

(** * Witnesses on the inputs *)

Module ShapeWitnesses.
Import Sparse Tfidf Storage Exact Whole Scenarios Inputs ExactFacts ShapeFacts.
Local Open Scope R_scope.

Lemma corpus_well_stored : well_stored (MatCSR corpus).
Proof.
  unfold well_stored, in_range.
  cbn [csr_of corpus raw_I Indptr Ind Data length].
  split; [reflexivity|]. split; [|split; cbn; lia].
  intros i Hi. destruct i as [|[|[|i]]]; cbn; lia.
Qed.

Lemma Fit_model_is_square_witness :
  exists model,
    transform (Fit padded (MatCSR corpus)) = Some model
    /\ dia_m model = 3%nat /\ dia_n model = 3%nat
    /\ length (Diagonal model) = 3%nat
    /\ weightPadding (Fit padded (MatCSR corpus)) = 1
    /\ l2Normalization (Fit padded (MatCSR corpus)) = 0%Z.
Proof.
  exact (Fit_model_is_square padded (MatCSR corpus) corpus_well_stored).
Defined.

Lemma other_modes_normalise_rows_witness :
  Transform (SetL2Normalization fitted 7) (MatCSR corpus)
  = Transform (SetL2Normalization fitted RowBasedL2Normalization) (MatCSR corpus).
Proof.
  apply (other_modes_normalise_rows fitted (MatCSR corpus) 7);
    unfold NoL2Normalization, ColBasedL2Normalization; lia.
Defined.

Lemma Fit_scans_the_zero_pattern_witness :
  Fit padded (MatAny two_and_zero) = Fit padded (MatAny five_and_zero).
Proof.
  apply (Fit_scans_the_zero_pattern padded two_and_zero five_and_zero);
    try reflexivity.
  intros i j _ _. cbn. destruct j as [|j]; [|reflexivity].
  rewrite (proj2 (Req0_false 2)) by lra.
  rewrite (proj2 (Req0_false 5)) by lra. reflexivity.
Defined.

Lemma Fit_on_CSR_reads_Indptr_only_witness :
  Fit padded (MatCSR corpus) = Fit padded (MatCSR corpus_counts).
Proof.
  apply (Fit_on_CSR_reads_Indptr_only padded corpus corpus_counts); reflexivity.
Defined.

Lemma loaded_model_transforms_alike_witness :
  Transform (fst (Load Layout.UnmarshalBinaryFrom loading saved_stream)) whole_cells
  = Transform (SetL2Normalization saving (l2Normalization loading)) whole_cells
  /\ weightPadding (fst (Load Layout.UnmarshalBinaryFrom loading saved_stream))
     = weightPadding loading
  /\ l2Normalization (fst (Load Layout.UnmarshalBinaryFrom loading saved_stream))
     = l2Normalization loading.
Proof.
  apply (loaded_model_transforms_alike
           Layout.MarshalBinaryTo Layout.UnmarshalBinaryFrom
           saving loading saved_model saved_stream [] whole_cells).
  - reflexivity.
  - vm_compute. reflexivity.
  - vm_compute. reflexivity.
Defined.

End ShapeWitnesses.

(** * Facts about the transposing transformer *)

Module TransposerFacts.
Import Sparse Tfidf SparseFacts TfidfFacts Transposer.

Section Cells.
Context {F : Type} `{Float64 F}.

Lemma find_app_first {A : Type} (p : A -> bool) (a b : list A) :
  find p (a ++ b) = match find p a with Some x => Some x | None => find p b end.
Proof. induction a as [|x a IH]; cbn; [reflexivity|]. now destruct (p x). Qed.

(** The entries row [i'] gives to column [j], looked up under row [i]. *)
Lemma find_in_row_part (c : CSR F) (j i i' : nat) :
  find (fun e => Nat.eqb (fst e) i)
       (map (fun e => (i', snd e))
            (List.filter (fun e : nat * F => Nat.eqb (fst e) j) (row_entries c i')))
  = if Nat.eqb i' i
    then option_map (fun e => (i', snd e))
                    (find (fun e => Nat.eqb (fst e) j) (row_entries c i'))
    else None.
Proof.
  induction (row_entries c i') as [|e row IH]; cbn [List.filter map find].
  - now destruct (Nat.eqb i' i).
  - destruct (Nat.eqb (fst e) j); [|exact IH].
    cbn [map find fst]. now destruct (Nat.eqb i' i).
Qed.

Lemma find_in_column (c : CSR F) (j i : nat) (rows : list nat) :
  List.NoDup rows ->
  find (fun e => Nat.eqb (fst e) i)
       (flat_map (fun i' => map (fun e => (i', snd e))
                   (List.filter (fun e : nat * F => Nat.eqb (fst e) j)
                                (row_entries c i')))
                 rows)
  = if existsb (Nat.eqb i) rows
    then option_map (fun e => (i, snd e))
                    (find (fun e => Nat.eqb (fst e) j) (row_entries c i))
    else None.
Proof.
  induction rows as [|i' rows IH]; intros Hnd; [reflexivity|].
  apply List.NoDup_cons_iff in Hnd as [Hfresh Hnd].
  cbn [flat_map existsb]. rewrite find_app_first, find_in_row_part, (IH Hnd).
  rewrite (Nat.eqb_sym i i').
  destruct (Nat.eqb_spec i' i) as [->|N]; cbn [orb]; [|reflexivity].
  assert (E : existsb (Nat.eqb i) rows = false).
  { apply not_true_is_false. intros Hex. apply Hfresh.
    apply existsb_exists in Hex as (k & Hk & Ek).
    apply Nat.eqb_eq in Ek. now subst. }
  rewrite E. now destruct (find _ (row_entries c i)).
Qed.

(** The transpose holds in cell (j,i) what the matrix holds in (i,j). *)
Lemma transpose_cell (c : CSR F) (i j : nat) :
  i < raw_I c -> j < raw_J c ->
  CSR_At (transpose c) j i = CSR_At c i j.
Proof.
  intros Hi Hj. unfold CSR_At at 1, transpose.
  rewrite row_entries_nth by (now rewrite length_map, length_seq).
  rewrite ExactFacts.nth_map_seq by exact Hj.
  unfold column_entries. rewrite find_in_column by apply seq_NoDup.
  assert (E : existsb (Nat.eqb i) (seq 0 (raw_I c)) = true).
  { apply existsb_exists. exists i. split; [apply in_seq; lia|apply Nat.eqb_refl]. }
  rewrite E. unfold CSR_At.
  now destruct (find _ (row_entries c i)).
Qed.

End Cells.

Section Transposing.
Context {F : Type} `{Float64 F}.
Variable any_T : AnyMatrix F -> option (CSR F).

(** X14. On a sparse matrix (one with [ToCSR]) the transposing
    [Transform] returns, with a nil error, a matrix of the swapped shape
    whose cell (j,i) is the cell (i,j) of the input. *)
Theorem Transform_transposes
  (t : TransposeTransformer) (matrix : Matrix F) (c : CSR F) :
  csr_of matrix = Some c ->
  Transform any_T t matrix = Transposed (transpose c) None
  /\ raw_I (transpose c) = snd (Dims matrix)
  /\ raw_J (transpose c) = fst (Dims matrix)
  /\ forall i j, i < fst (Dims matrix) -> j < snd (Dims matrix) ->
       CSR_At (transpose c) j i = At matrix i j.
Proof.
  intros Hc.
  destruct matrix as [c'|tc|g]; cbn in Hc; try discriminate;
    injection Hc as <-; (split; [reflexivity|]); (split; [reflexivity|]);
    (split; [reflexivity|]); intros i j Hi Hj; now apply transpose_cell.
Qed.

(** X15. The transposing [Transform] never returns an error, and it
    panics exactly on a matrix that has no [ToCSR] and whose [T()] is
    not a compressed-column matrix. *)
Theorem Transform_panics_on_other_transposes
  (t : TransposeTransformer) (matrix : Matrix F) :
  (forall result err, Transform any_T t matrix = Transposed result err ->
                      err = None)
  /\ (Transform any_T t matrix = AssertionPanic
      <-> exists g, matrix = MatAny g /\ any_T g = None).
Proof.
  split.
  - intros result err. unfold Transform.
    destruct (to_csr matrix) as [c|tc|g]; try (intros E; now injection E).
    destruct (any_T g); [intros E; now injection E|discriminate].
  - unfold Transform. destruct matrix as [c|tc|g]; cbn [to_csr].
    + split; [discriminate|]. intros (g & E & _). discriminate.
    + split; [discriminate|]. intros (g & E & _). discriminate.
    + destruct (any_T g) as [csc|] eqn:E.
      * split; [discriminate|]. intros (g' & Eg & En).
        injection Eg as <-. congruence.
      * split; [intros _; now exists g|reflexivity].
Qed.

(** X16. Transposing a compressed-row matrix twice gives back the shape
    and every cell of the matrix. *)
Theorem transposing_twice (t : TransposeTransformer) (c : CSR F) :
  exists once twice,
    Transform any_T t (MatCSR c) = Transposed once None
    /\ Transform any_T t (MatCSR once) = Transposed twice None
    /\ raw_I twice = raw_I c /\ raw_J twice = raw_J c
    /\ forall i j, i < raw_I c -> j < raw_J c ->
         CSR_At twice i j = CSR_At c i j.
Proof.
  exists (transpose c), (transpose (transpose c)).
  split; [reflexivity|]. split; [reflexivity|].
  split; [reflexivity|]. split; [reflexivity|].
  intros i j Hi Hj. rewrite transpose_cell by assumption.
  now apply transpose_cell.
Qed.

(** X17. The transposing [FitTransform] returns what [Transform]
    returns, a panic included, and leaves the transformer as it was:
    [Fit] has nothing to learn. *)
Theorem transposer_FitTransform_is_Transform
  (t : TransposeTransformer) (matrix : Matrix F) :
  FitTransform any_T t matrix = (t, Transform any_T t matrix).
Proof.
  unfold FitTransform, Fit, Transform. now rewrite to_csr_idem.
Qed.

End Transposing.
End TransposerFacts.

(** * Column mode, cell by cell *)

Module ColumnModeFacts.
Import Sparse Tfidf SparseFacts TfidfFacts ShapeFacts TransposerFacts.

Section Columns.
Context {F : Type} `{Float64 F}.

Lemma find_mapped (g : F -> F) (row : list (nat * F)) (i : nat) :
  find (fun e => Nat.eqb (fst e) i) (map (fun e => (fst e, g (snd e))) row)
  = option_map (fun e => (fst e, g (snd e)))
               (find (fun e => Nat.eqb (fst e) i) row).
Proof.
  induction row as [|e row IH]; cbn [map find fst]; [reflexivity|].
  now destruct (Nat.eqb (fst e) i).
Qed.

(** The entry row [i] gives to column [j], looked up in the column. *)
Lemma find_column_entry (c : CSR F) (i j : nat) :
  i < raw_I c ->
  find (fun e => Nat.eqb (fst e) i) (column_entries c j)
  = option_map (fun e => (i, snd e))
               (find (fun e => Nat.eqb (fst e) j) (row_entries c i)).
Proof.
  intros Hi. unfold column_entries.
  rewrite find_in_column by apply seq_NoDup.
  assert (E : existsb (Nat.eqb i) (seq 0 (raw_I c)) = true).
  { apply existsb_exists. exists i. split; [apply in_seq; lia|apply Nat.eqb_refl]. }
  now rewrite E.
Qed.

(** A cell of [transpose (normalise (transpose c))]: the first entry row
    [i] stores for column [j], divided by the square root of the sum of
    squares of the entries stored for column [j] when that sum is not
    zero. *)
Lemma column_mode_stored_cell (c : CSR F) (i j : nat) :
  i < raw_I c -> j < raw_J c ->
  CSR_At (transpose (normalise (transpose c))) i j
  = let sum := sum_sq_values (map snd (column_entries c j)) in
    match find (fun e => Nat.eqb (fst e) j) (row_entries c i) with
    | None => f_zero
    | Some e => if f_eq0 sum then snd e else f_div (snd e) (math_Sqrt sum)
    end.
Proof.
  intros Hi Hj. cbv zeta.
  destruct (normalise_dims (transpose c)) as [NI NJ].
  rewrite transpose_cell by (rewrite ?NI, ?NJ; assumption).
  unfold transpose at 1.
  replace (raw_J c) with (length (map (column_entries c) (seq 0 (raw_J c)))) at 1
    by (now rewrite length_map, length_seq).
  rewrite normalise_csr_of_rows, map_map. unfold CSR_At.
  rewrite row_entries_nth by (now rewrite length_map, length_seq).
  rewrite ExactFacts.nth_map_seq by exact Hj.
  rewrite norm_row_entries.
  destruct (f_eq0 (sum_sq_values (map snd (column_entries c j)))).
  - rewrite find_column_entry by exact Hi.
    now destruct (find _ (row_entries c i)).
  - rewrite (find_mapped
               (fun x => f_div x (math_Sqrt (sum_sq_values
                                               (map snd (column_entries c j)))))).
    rewrite find_column_entry by exact Hi.
    now destruct (find _ (row_entries c i)).
Qed.

(** X18. Column mode for every reading of the float64 operations, against
    the result [weighted] of no normalization: the result has the same
    shape, and its cell (i,j) is the entry [weighted] stores for column
    [j] in row [i], divided by [math.Sqrt] of the computed sum of squares
    of the entries stored for column [j] (rows in increasing order) when
    that sum is [!= 0], unchanged when it is [== 0]; a cell for which
    nothing is stored is zero. *)
Theorem column_mode_divides_columns
  (t : TfidfTransformer F) (matrix : Matrix F) :
  match Transform (SetL2Normalization t NoL2Normalization) matrix with
  | Panicked p =>
      Transform (SetL2Normalization t ColBasedL2Normalization) matrix = Panicked p
  | Returned (weighted, _) =>
      exists result,
        Transform (SetL2Normalization t ColBasedL2Normalization) matrix
        = Returned (result, None)
        /\ raw_I result = raw_I weighted /\ raw_J result = raw_J weighted
        /\ forall i j, i < raw_I weighted -> j < raw_J weighted ->
             let sum := sum_sq_values (map snd (column_entries weighted j)) in
             CSR_At result i j
             = match find (fun e => Nat.eqb (fst e) j) (row_entries weighted i) with
               | None => f_zero
               | Some e =>
                   if f_eq0 sum then snd e else f_div (snd e) (math_Sqrt sum)
               end
  end.
Proof.
  rewrite !Transform_unfold.
  destruct (Mul (transform t) (to_csr matrix)) as [product|p] eqn:E;
    [|reflexivity].
  change (l2_normalise NoL2Normalization product) with product.
  change (l2_normalise ColBasedL2Normalization product)
    with (transpose (normalise (transpose product))).
  exists (transpose (normalise (transpose product))).
  split; [reflexivity|].
  destruct (normalise_dims (transpose product)) as [NI NJ].
  split; [cbn [transpose raw_I csr_of_rows]; now rewrite NJ|].
  split; [cbn [transpose raw_J csr_of_rows]; now rewrite NI|].
  intros i j Hi Hj. exact (column_mode_stored_cell product i j Hi Hj).
Qed.

End Columns.
End ColumnModeFacts.

(** * Column mode, in exact arithmetic *)

Module ColumnFacts.
Import Sparse Tfidf Exact Columns Scenarios Inputs.
Import SparseFacts TfidfFacts ExactFacts ShapeFacts TransposerFacts.
Local Open Scope R_scope.

Lemma sum_sq_app (a b : list R) : sum_sq (a ++ b) = sum_sq a + sum_sq b.
Proof.
  unfold sum_sq at 1. rewrite fold_left_app, sum_sq_from. reflexivity.
Qed.

Lemma filter_absent (row : list (nat * R)) (j : nat) :
  ~ In j (map fst row) ->
  List.filter (fun e : nat * R => Nat.eqb (fst e) j) row = [].
Proof.
  induction row as [|e row IH]; intros Hj; [reflexivity|].
  cbn [List.filter]. destruct (Nat.eqb_spec (fst e) j) as [E|_].
  - exfalso. apply Hj. now left.
  - apply IH. intros Hin. apply Hj. now right.
Qed.

(** A row that stores no column twice gives a column one entry at most. *)
Lemma row_share_of_column (row : list (nat * R)) (j : nat) :
  List.NoDup (map fst row) ->
  sum_sq (map snd (List.filter (fun e : nat * R => Nat.eqb (fst e) j) row))
  = value_at row j * value_at row j.
Proof.
  induction row as [|e row IH]; intros Hnd.
  - unfold value_at, sum_sq. cbn. lra.
  - cbn [map] in Hnd. apply List.NoDup_cons_iff in Hnd as [Hfresh Hnd].
    unfold value_at. cbn [List.filter find].
    destruct (Nat.eqb_spec (fst e) j) as [E|N].
    + rewrite filter_absent by now rewrite <- E.
      unfold sum_sq. cbn. lra.
    + now apply IH.
Qed.

Lemma stored_column_sum (c : CSR R) (j : nat) (rows : list nat) :
  (forall i, In i rows -> List.NoDup (map fst (row_entries c i))) ->
  sum_sq (map snd
            (flat_map (fun i => map (fun e => (i, snd e))
                        (List.filter (fun e : nat * R => Nat.eqb (fst e) j)
                                     (row_entries c i)))
                      rows))
  = sum_sq (map (fun i => CSR_At c i j) rows).
Proof.
  induction rows as [|i rows IH]; intros Hnd; [reflexivity|].
  cbn [flat_map map]. rewrite map_app, sum_sq_app, sum_sq_cons.
  rewrite IH by (intros k Hk; apply Hnd; now right).
  rewrite map_map. cbn [snd].
  rewrite row_share_of_column by (apply Hnd; now left).
  reflexivity.
Qed.

(** The stored entries of a column carry the sum of squares of its cells. *)
Lemma column_entries_sum (c : CSR R) (j : nat) :
  (forall i, (i < raw_I c)%nat -> List.NoDup (map fst (row_entries c i))) ->
  sum_sq (map snd (column_entries c j)) = column_sum_sq c j.
Proof.
  intros Hnd. unfold column_entries, column_sum_sq.
  apply stored_column_sum. intros i Hi. apply Hnd. apply in_seq in Hi. lia.
Qed.

Lemma value_at_mapped (h : R -> R) (row : list (nat * R)) (i : nat) :
  h 0 = 0 ->
  value_at (map (fun e => (fst e, h (snd e))) row) i = h (value_at row i).
Proof.
  intros H0. unfold value_at.
  induction row as [|e row IH]; cbn [map find fst snd]; [now rewrite H0|].
  now destruct (Nat.eqb (fst e) i).
Qed.

Lemma norm_row_exact (row : list (nat * R)) :
  norm_row row
  = if Req0 (sum_sq (map snd row)) then row
    else map (fun e => (fst e, snd e / sqrt (sum_sq (map snd row)))) row.
Proof.
  unfold norm_row. rewrite norm_values_exact.
  destruct (Req0 (sum_sq (map snd row))); [apply combine_fst_snd|].
  generalize (sqrt (sum_sq (map snd row))) as k. intros k.
  induction row as [|e row IH]; cbn [map combine]; [reflexivity|].
  now rewrite IH.
Qed.

Lemma value_at_norm_row (row : list (nat * R)) (i : nat) :
  value_at (norm_row row) i
  = if Req0 (sum_sq (map snd row)) then value_at row i
    else value_at row i / sqrt (sum_sq (map snd row)).
Proof.
  rewrite norm_row_exact.
  destruct (Req0 (sum_sq (map snd row))); [reflexivity|].
  apply (value_at_mapped (fun x => x / sqrt (sum_sq (map snd row)))).
  unfold Rdiv. lra.
Qed.

Lemma value_at_column (c : CSR R) (i j : nat) :
  (i < raw_I c)%nat -> (j < raw_J c)%nat ->
  value_at (column_entries c j) i = CSR_At c i j.
Proof.
  intros Hi Hj. rewrite <- (transpose_cell c i j Hi Hj).
  unfold transpose. now rewrite CSR_At_rows.
Qed.

(** A cell of the column-mode result, for any compressed-row matrix. *)
Lemma column_mode_cell (c : CSR R) (i j : nat) :
  (i < raw_I c)%nat -> (j < raw_J c)%nat ->
  CSR_At (transpose (normalise (transpose c))) i j
  = if Req0 (sum_sq (map snd (column_entries c j))) then CSR_At c i j
    else CSR_At c i j / sqrt (sum_sq (map snd (column_entries c j))).
Proof.
  intros Hi Hj.
  destruct (normalise_dims (transpose c)) as [NI NJ].
  rewrite transpose_cell by (rewrite ?NI, ?NJ; assumption).
  unfold transpose at 1.
  replace (raw_J c) with (length (map (column_entries c) (seq 0 (raw_J c)))) at 1
    by (now rewrite length_map, length_seq).
  rewrite normalise_csr_of_rows, map_map, CSR_At_rows by exact Hj.
  rewrite value_at_norm_row, value_at_column by assumption.
  reflexivity.
Qed.

Lemma scale_row_columns (w : R) (row : list (nat * R)) (j : nat) :
  In j (map fst (scale_row w row)) -> In j (map fst row).
Proof.
  induction row as [|e row IH]; [exact (fun x => x)|].
  rewrite scale_row_cons. cbn [map].
  destruct (Req0 (snd e * w)).
  - intros Hin. right. now apply IH.
  - cbn [map fst]. intros [E|Hin]; [now left|right; now apply IH].
Qed.

Lemma scale_row_distinct (w : R) (row : list (nat * R)) :
  List.NoDup (map fst row) -> List.NoDup (map fst (scale_row w row)).
Proof.
  induction row as [|e row IH]; intros Hnd; [exact Hnd|].
  cbn [map] in Hnd. apply List.NoDup_cons_iff in Hnd as [Hfresh Hnd].
  rewrite scale_row_cons. destruct (Req0 (snd e * w)); [now apply IH|].
  cbn [map fst]. apply List.NoDup_cons; [|now apply IH].
  intros Hin. apply Hfresh. now apply (scale_row_columns w).
Qed.

Lemma mul_row_distinct (dia : DIA R) (i : nat) (row : list (nat * R)) :
  List.NoDup (map fst row) -> List.NoDup (map fst (mul_row dia i row)).
Proof.
  intros Hnd. unfold mul_row.
  destruct (nth_error (Diagonal dia) i); [now apply scale_row_distinct|].
  apply List.NoDup_nil.
Qed.

(** The product of a model and a matrix that stores no column twice in a
    row stores no column twice in a row. *)
Lemma product_distinct (a : option (DIA R)) (matrix : Matrix R) (product : CSR R) :
  distinct_columns matrix ->
  Mul a (to_csr matrix) = Returned product ->
  forall i, (i < raw_I product)%nat ->
            List.NoDup (map fst (row_entries product i)).
Proof.
  intros Hd. unfold Mul. destruct a as [dia|]; [|discriminate].
  destruct (Nat.eqb _ _); [|discriminate].
  intros E. injection E as <-. intros i Hi.
  assert (Hcells : forall (m : Matrix R),
            List.NoDup (map fst (map (fun k => (k, At m i k))
                                     (seq 0 (snd (Dims m)))))).
  { intros m. rewrite map_map. cbn [fst]. rewrite map_id. apply seq_NoDup. }
  destruct matrix as [c|tc|g]; cbn [to_csr] in *;
    unfold mulDIACSR, mulDIAMat in *; cbn [raw_I csr_of_rows] in Hi;
    rewrite row_entries_nth by (now rewrite length_map, length_seq);
    rewrite nth_map_seq by exact Hi; apply mul_row_distinct;
    try apply Hcells; apply Hd.
Qed.

(** Column mode in exact arithmetic, against the weighted result
    [weighted] that no normalization returns, for a matrix that stores no column twice in
    a row: the result has the same shape; in every column whose sum of
    squares is not zero each cell is the weighted cell divided by the
    square root of that sum, and the sum of squares of the column becomes
    1; a column whose sum of squares is zero keeps its cells. *)
Theorem column_mode_normalises_columns
  (t : TfidfTransformer R) (matrix : Matrix R) :
  distinct_columns matrix ->
  match Transform (SetL2Normalization t NoL2Normalization) matrix with
  | Panicked p =>
      Transform (SetL2Normalization t ColBasedL2Normalization) matrix = Panicked p
  | Returned (weighted, _) =>
      exists result,
        Transform (SetL2Normalization t ColBasedL2Normalization) matrix
        = Returned (result, None)
        /\ raw_I result = raw_I weighted /\ raw_J result = raw_J weighted
        /\ forall j, (j < raw_J weighted)%nat ->
             (column_sum_sq weighted j <> 0 ->
              (forall i, (i < raw_I weighted)%nat ->
                 CSR_At result i j
                 = CSR_At weighted i j / sqrt (column_sum_sq weighted j))
              /\ column_sum_sq result j = 1)
             /\ (column_sum_sq weighted j = 0 ->
                 forall i, (i < raw_I weighted)%nat ->
                   CSR_At result i j = CSR_At weighted i j)
  end.
Proof.
  intros Hd. rewrite !Transform_unfold.
  destruct (Mul (transform t) (to_csr matrix)) as [product|p] eqn:E;
    [|reflexivity].
  change (l2_normalise NoL2Normalization product) with product.
  change (l2_normalise ColBasedL2Normalization product)
    with (transpose (normalise (transpose product))).
  exists (transpose (normalise (transpose product))).
  split; [reflexivity|].
  destruct (normalise_dims (transpose product)) as [NI NJ].
  assert (RI : raw_I (transpose (normalise (transpose product))) = raw_I product)
    by (cbn [transpose raw_I csr_of_rows]; now rewrite NJ).
  split; [exact RI|]. split; [cbn [transpose raw_J csr_of_rows]; now rewrite NI|].
  intros j Hj.
  pose proof (column_entries_sum product j (product_distinct _ _ _ Hd E)) as Hs.
  assert (Hcell : forall i, (i < raw_I product)%nat ->
            CSR_At (transpose (normalise (transpose product))) i j
            = if Req0 (column_sum_sq product j) then CSR_At product i j
              else CSR_At product i j / sqrt (column_sum_sq product j)).
  { intros i Hi. rewrite column_mode_cell by assumption. now rewrite Hs. }
  split.
  - intros Hne. apply Req0_false in Hne as Hb. split.
    + intros i Hi. rewrite Hcell by exact Hi. now rewrite Hb.
    + unfold column_sum_sq at 1. rewrite RI.
      rewrite (map_ext_in _ (fun i => CSR_At product i j
                                      / sqrt (column_sum_sq product j))).
      * rewrite <- (map_map (fun i => CSR_At product i j)
                            (fun x => x / sqrt (column_sum_sq product j))).
        now apply sum_sq_normalised.
      * intros i Hi. apply in_seq in Hi. rewrite Hcell by lia. now rewrite Hb.
  - intros Hz i Hi. rewrite Hcell by exact Hi.
    now rewrite (proj2 (Req0_true _) Hz).
Qed.

End ColumnFacts.

(** * Weights and padding, in exact arithmetic *)

Module WeightFacts.
Import Sparse Tfidf Exact Scenarios Inputs.
Import SparseFacts TfidfFacts ExactFacts.
Local Open Scope R_scope.

Lemma ln_le (x y : R) : 0 < x -> x <= y -> ln x <= ln y.
Proof.
  intros Hx [Hlt | ->]; [|lra]. left. now apply ln_increasing.
Qed.

Lemma idf_bounds (n df : R) :
  0 <= df <= n -> 0 <= ln ((1 + n) / (1 + df)) <= ln (1 + n).
Proof.
  intros [H0 Hle].
  assert (Hk : 0 < / (1 + df)) by (apply Rinv_0_lt_compat; lra).
  assert (Hinv : (1 + df) * / (1 + df) = 1) by (apply Rinv_r; lra).
  unfold Rdiv. set (k := / (1 + df)) in *.
  assert (H1 : 1 <= (1 + n) * k) by nra.
  assert (H2 : (1 + n) * k <= 1 + n) by nra.
  split.
  - rewrite <- ln_1. apply ln_le; lra.
  - apply ln_le; lra.
Qed.

Lemma Fit_mode (t : TfidfTransformer R) (matrix : Matrix R) :
  l2Normalization (Fit t matrix) = l2Normalization t.
Proof. unfold Fit. now destruct (Dims (to_csr matrix)). Qed.

(** X19. Fit then Transform without normalization on a matrix without
    stored zeros, for any padding [p]: cell (i,j) of the result is the
    cell of the matrix times [ln((1+n)/(1+df_i)) + p]. *)
Theorem Fit_Transform_cells (t : TfidfTransformer R) (matrix : Matrix R) :
  clean_matrix matrix ->
  (Z.of_nat (snd (Dims matrix)) < 2 ^ 63 - 1)%Z ->
  l2Normalization t = NoL2Normalization ->
  exists result,
    Transform (Fit t matrix) matrix = Returned (result, None)
    /\ forall i j,
         (i < fst (Dims matrix))%nat -> (j < snd (Dims matrix))%nat ->
         CSR_At result i j
         = At matrix i j
           * (ln ((1 + INR (snd (Dims matrix)))
                  / (1 + INR (document_frequency matrix i)))
              + weightPadding t).
Proof.
  intros Hc Hn Hmode.
  pose proof (Fit_model_formula t matrix Hc Hn) as Hfit.
  unfold Transform, Mul. rewrite Hfit. cbn [dia_n].
  rewrite Dims_to_csr, Nat.eqb_refl, Fit_mode, Hmode.
  change (l2_normalise NoL2Normalization ?p) with p.
  eexists. split; [reflexivity|].
  set (dia := NewDIA _ _ _).
  intros i j Hi Hj.
  assert (Hclean : clean_matrix (to_csr matrix)) by (destruct matrix; exact Hc).
  pose proof (weighted_cell dia (to_csr matrix) i j Hclean) as W.
  rewrite Dims_to_csr in W.
  assert (Hlen : length (Diagonal dia) = fst (Dims matrix))
    by (unfold dia; cbn [Diagonal]; now rewrite length_map, length_seq).
  specialize (W eq_refl Hlen Hi Hj).
  rewrite At_to_csr in W.
  replace (nth i (Diagonal dia) 0)
    with (ln ((1 + INR (snd (Dims matrix)))
              / (1 + INR (document_frequency matrix i))) + weightPadding t) in W
    by (unfold dia; cbn [Diagonal]; now rewrite nth_map_seq).
  rewrite <- W. destruct matrix as [c|tc|g]; reflexivity.
Qed.

(** X20. On a matrix without stored zeros every weight lies between the
    padding [p] and [ln(1+n) + p]; a term found in every document gets
    exactly [p] (with no padding it is weighted down to zero), a term
    found in none gets [ln(1+n) + p]. *)
Theorem weights_between (t : TfidfTransformer R) (matrix : Matrix R) :
  clean_matrix matrix ->
  (Z.of_nat (snd (Dims matrix)) < 2 ^ 63 - 1)%Z ->
  exists model,
    transform (Fit t matrix) = Some model
    /\ forall i, (i < fst (Dims matrix))%nat ->
         weightPadding t <= nth i (Diagonal model) 0
                         <= ln (1 + INR (snd (Dims matrix))) + weightPadding t
         /\ (document_frequency matrix i = snd (Dims matrix) ->
             nth i (Diagonal model) 0 = weightPadding t)
         /\ (document_frequency matrix i = 0%nat ->
             nth i (Diagonal model) 0
             = ln (1 + INR (snd (Dims matrix))) + weightPadding t).
Proof.
  intros Hc Hn. rewrite (Fit_model_formula t matrix Hc Hn).
  eexists. split; [reflexivity|]. intros i Hi. cbn [Diagonal].
  rewrite nth_map_seq by exact Hi.
  pose proof (document_frequency_le matrix i) as Hle. apply le_INR in Hle.
  pose proof (pos_INR (document_frequency matrix i)) as Hdf.
  destruct (idf_bounds _ _ (conj Hdf Hle)) as [L1 L2].
  split; [lra|split].
  - intros E. rewrite E.
    pose proof (pos_INR (snd (Dims matrix))).
    replace ((1 + INR (snd (Dims matrix))) / (1 + INR (snd (Dims matrix))))
      with 1 by (field; lra).
    rewrite ln_1. lra.
  - intros E. rewrite E. cbn [INR].
    replace ((1 + INR (snd (Dims matrix))) / (1 + 0))
      with (1 + INR (snd (Dims matrix))) by (field; lra).
    reflexivity.
Qed.

End WeightFacts.

(** * Witnesses for the transposing transformer, columns and weights *)

Module CoverageWitnesses.
Import Sparse Tfidf Exact Columns Scenarios Inputs.
Import ExactFacts TransposerFacts ColumnFacts WeightFacts.
Local Open Scope R_scope.

Lemma Transform_transposes_witness :
  Transposer.Transform gonum_T Transposer.NewTransposeTransformer (MatCSR corpus)
  = Transposer.Transposed (transpose corpus) None
  /\ raw_I (transpose corpus) = 4%nat
  /\ raw_J (transpose corpus) = 3%nat
  /\ forall i j, (i < 3)%nat -> (j < 4)%nat ->
       CSR_At (transpose corpus) j i = CSR_At corpus i j.
Proof.
  exact (Transform_transposes gonum_T Transposer.NewTransposeTransformer
           (MatCSR corpus) corpus eq_refl).
Defined.

Lemma corpus_distinct : distinct_columns (MatCSR corpus).
Proof.
  intros i. destruct i as [|[|[|[|i]]]].
  - cbn. repeat (apply List.NoDup_cons; [cbn; lia|]). apply List.NoDup_nil.
  - cbn. repeat (apply List.NoDup_cons; [cbn; lia|]). apply List.NoDup_nil.
  - cbn. apply List.NoDup_nil.
  - cbn. apply List.NoDup_nil.
  - unfold row_entries. cbn [Indptr corpus].
    rewrite !nth_overflow by (cbn [length]; lia).
    cbn. apply List.NoDup_nil.
Qed.

Lemma column_mode_normalises_columns_witness :
  match Transform (SetL2Normalization fitted NoL2Normalization) (MatCSR corpus) with
  | Panicked p =>
      Transform (SetL2Normalization fitted ColBasedL2Normalization) (MatCSR corpus)
      = Panicked p
  | Returned (weighted, _) =>
      exists result,
        Transform (SetL2Normalization fitted ColBasedL2Normalization) (MatCSR corpus)
        = Returned (result, None)
        /\ raw_I result = raw_I weighted /\ raw_J result = raw_J weighted
        /\ forall j, (j < raw_J weighted)%nat ->
             (column_sum_sq weighted j <> 0 ->
              (forall i, (i < raw_I weighted)%nat ->
                 CSR_At result i j
                 = CSR_At weighted i j / sqrt (column_sum_sq weighted j))
              /\ column_sum_sq result j = 1)
             /\ (column_sum_sq weighted j = 0 ->
                 forall i, (i < raw_I weighted)%nat ->
                   CSR_At result i j = CSR_At weighted i j)
  end.
Proof.
  exact (column_mode_normalises_columns fitted (MatCSR corpus) corpus_distinct).
Defined.

Lemma Fit_Transform_cells_witness :
  exists result,
    Transform (Fit padded (MatCSR corpus)) (MatCSR corpus)
    = Returned (result, None)
    /\ forall i j,
         (i < 3)%nat -> (j < 4)%nat ->
         CSR_At result i j
         = CSR_At corpus i j
           * (ln ((1 + INR 4) / (1 + INR (document_frequency (MatCSR corpus) i)))
              + 1).
Proof.
  exact (Fit_Transform_cells padded (MatCSR corpus)
           corpus_clean corpus_in_range eq_refl).
Defined.

Lemma weights_between_witness :
  exists model,
    transform (Fit padded (MatCSR corpus)) = Some model
    /\ forall i, (i < 3)%nat ->
         1 <= nth i (Diagonal model) 0 <= ln (1 + INR 4) + 1
         /\ (document_frequency (MatCSR corpus) i = 4%nat ->
             nth i (Diagonal model) 0 = 1)
         /\ (document_frequency (MatCSR corpus) i = 0%nat ->
             nth i (Diagonal model) 0 = ln (1 + INR 4) + 1).
Proof.
  exact (weights_between padded (MatCSR corpus) corpus_clean corpus_in_range).
Defined.

End CoverageWitnesses.

(** * The normalization in binary64 *)

Module Binary64Facts.
Import Sparse Tfidf Binary64.
Import PrimFloat.
Local Open Scope float_scope.



(** With the count 1e-200 the squares underflow to 0: the computed sum of
    squares is 0 and the row, which is not a zero row, is left as it is. *)
Example row_mode_underflows (Log : float -> float) :
  @Transform float (binary64 Log)
     (unit_weight RowBasedL2Normalization) (MatCSR (one_row tiny))
  = Returned (one_row tiny, None)
  /\ @sum_sq_values float (binary64 Log) [tiny; tiny] = 0.
Proof. split; vm_compute; reflexivity. Qed.

(** With the count 1 the row becomes (0.70710678118654746,
    0.70710678118654746), whose sum of squares is 0.99999999999999978. *)
Example row_mode_rounds (Log : float -> float) :
  @Transform float (binary64 Log)
     (unit_weight RowBasedL2Normalization) (MatCSR (one_row 1))
  = Returned (one_row 0x1.6a09e667f3bccp-1, None)
  /\ @sum_sq_values float (binary64 Log)
       [0x1.6a09e667f3bccp-1; 0x1.6a09e667f3bccp-1]
     = 0x1.ffffffffffffep-1
  /\ (0x1.ffffffffffffep-1 <? 1) = true.
Proof. repeat split; vm_compute; reflexivity. Qed.

End Binary64Facts.
